(** * ValidationReportReader: extraction of validation report XML into mmCIF

    A shallow embedding of [rcsb/utils/validation/ValidationReportReader.py]:
    the hierarchy flattening [__extract], the category builder [__buildCif]
    (row normalisation, column ordering, schema renaming, provenance
    decoding) and [read].

    Python dictionaries are objects shared by reference.  The XML parser
    gives every element its own attribute dictionary, and [__extract] puts
    some of those very dictionaries (not copies) into its row tables, which
    [__buildCif] later mutates.  We therefore model the dictionaries as a
    heap of attribute maps addressed by locations; an element carries the
    location of its [attrib] dictionary, and a row table is a list of
    locations. *)

From Stdlib Require Import ZArith Ascii String Bool Lia.
From Stdlib Require Import Sorted.
From stdpp Require Import base gmap sets list strings pretty.

#[local] Set Warnings "-register-all".


Local Open Scope Z_scope.

(** ** Values, attribute dictionaries and the heap *)

(** A row value: XML attributes are strings, the derived [ordinal] column
    holds a Python [int]. *)
Inductive val :=
| VStr (s : string)
| VInt (z : Z).

Abbreviation attrs := (gmap string val).
Abbreviation loc := positive.
Abbreviation heap := (gmap loc attrs).

(** Reading the dictionary at a location. *)
Definition get (h : heap) (l : loc) : attrs := default ∅ (h !! l).

(** ** Python string helpers *)

(** [str.isspace] on the ASCII range: \t \n \v \f \r, the separators
    \x1c-\x1f and the space. *)
Definition is_space (c : ascii) : bool :=
  let n := nat_of_ascii c in
  ((9 <=? n)%nat && (n <=? 13)%nat) || ((28 <=? n)%nat && (n <=? 32)%nat).

Fixpoint lstrip (s : string) : string :=
  match s with
  | EmptyString => EmptyString
  | String c r => if is_space c then lstrip r else s
  end.

Fixpoint rstrip (s : string) : string :=
  match s with
  | EmptyString => EmptyString
  | String c r =>
      let r' := rstrip r in
      if String.eqb r' EmptyString && is_space c then EmptyString else String c r'
  end.

(** [s.strip()] *)
Definition strip (s : string) : string := rstrip (lstrip s).

(** [str(v)] *)
Definition py_str (v : val) : string :=
  match v with
  | VStr s => s
  | VInt z => pretty z
  end.

(** [s.split(',')]: always at least one piece. *)
Fixpoint split_comma (s : string) : list string :=
  match s with
  | EmptyString => [EmptyString]
  | String c r =>
      match split_comma r with
      | [] => []
      | x :: xs =>
          if Ascii.eqb c ","%char then EmptyString :: x :: xs
          else String c x :: xs
      end
  end.

(** [",".join(l)] *)
Fixpoint join_comma (l : list string) : string :=
  match l with
  | [] => EmptyString
  | [x] => x
  | x :: xs => x ++ "," ++ join_comma xs
  end.

(** ** The parsed document (external parser [ET.parse]) *)

(** An element: its tag, the location of its [attrib] dictionary and its
    ordered children. *)
Inductive element := Element {
  el_tag : string;
  el_attrib : loc;
  el_children : list element
}.

(** The tables built by [__extract]: a Python dict (insertion ordered) from
    tag name to the list of row dictionaries. *)
Abbreviation table A := (list (string * list A)).

(** [rD.setdefault(k, []).append(v)] *)
Fixpoint setdefault_append {A} (k : string) (v : A) (rD : table A) : table A :=
  match rD with
  | [] => [(k, [v])]
  | (k', vs) :: r =>
      if String.eqb k k' then (k', vs ++ [v]) :: r
      else (k', vs) :: setdefault_append k v r
  end.

(** ** [__extract] *)

(** [atL]: the cardinal attributes of a [ModelledSubgroup]. *)
Definition atL : list string :=
  ["altcode"; "chain"; "ent"; "model"; "resname"; "resnum"; "said"; "seq"].

(** [msgD = el.attrib if el.tag == 'ModelledSubgroup' else {}] *)
Definition msgD_of (ptag : string) (pattrib : attrs) : attrs :=
  if String.eqb ptag "ModelledSubgroup" then pattrib else ∅.

(** [d = {k: ch.attrib[k] for k in ch.attrib}]
    [d.update({k: msgD[k] for k in atL if k in msgD})] *)
Definition child_row (msgD : attrs) (chattrib : attrs) : attrs :=
  foldl (fun d k => match msgD !! k with
                    | Some v => <[k := v]> d
                    | None => d
                    end) chattrib atL.

Record xstate := XState { xs_rd : table loc; xs_heap : heap }.

Definition xappend (k : string) (l : loc) (s : xstate) : xstate :=
  XState (setdefault_append k l (xs_rd s)) (xs_heap s).

(** A fresh dictionary on the heap. *)
Definition xalloc (d : attrs) (s : xstate) : loc * xstate :=
  let l := fresh (dom (xs_heap s)) in
  (l, XState (xs_rd s) (<[l := d]> (xs_heap s))).

(** [for gch in ch: rD.setdefault(gch.tag, []).append(gch.attrib)] *)
Definition extract_grandchildren (gchs : list element) (s : xstate) : xstate :=
  foldl (fun s gch => xappend (el_tag gch) (el_attrib gch) s) s gchs.

(** The body of the loop over the children [ch] of a top-level element
    [el]; [msgD] is [el.attrib] itself (read through the heap) or [{}]. *)
Definition extract_child (el : element) (s : xstate) (ch : element) : xstate :=
  let msgD := msgD_of (el_tag el) (get (xs_heap s) (el_attrib el)) in
  let d := child_row msgD (get (xs_heap s) (el_attrib ch)) in
  let '(l, s1) := xalloc d s in
  let s2 := xappend (el_tag ch) l s1 in
  extract_grandchildren (el_children ch) s2.

(** The body of the loop over the top-level elements [el]. *)
Definition extract_top (s : xstate) (el : element) : xstate :=
  let s1 := xappend (el_tag el) (el_attrib el) s in
  foldl (extract_child el) s1 (el_children el).

(** [__extract(xrt)]: [xrt.getroot()] is [root]. *)
Definition extract (root : element) (h : heap) : xstate :=
  foldl extract_top (XState [] h) (el_children root).

(** ** Reader configuration (loaded in [__init__]) *)

(** The tables of [ValidationReportSchemaUtils]: [schemaMap['categories']],
    [schemaMap['attributes']] (the ['at'] field of each entry), the
    attribute order table [__atOrdD] and the provenance decode table
    [__atMap]. *)
Record reader := Reader {
  sm_categories : gmap string string;
  sm_attributes : gmap (string * string) string;
  atOrdD : gmap string Z;
  atMap : gmap string string
}.

(** [self.__attribD]: for every key [(catName, atName)] of
    [schemaMap['attributes']], [atName] is appended to the list of
    [catName]. *)
Definition attribD (r : reader) : gmap string (list string) :=
  map_fold (fun ca _ acc => <[ca.1 := default [] (acc !! ca.1) ++ [ca.2]]> acc)
    ∅ (sm_attributes r).

(** ** Errors and the state-and-error monad of [__buildCif] *)

Inductive err :=
| KeyError (key : string)
| AttributeError (what : string)
| IndexError.

Definition M (A : Type) : Type := heap -> err + (A * heap).

Definition mret {A} (a : A) : M A := fun h => inr (a, h).
Definition mthrow {A} (e : err) : M A := fun _ => inl e.
Definition mbind {A B} (m : M A) (f : A -> M B) : M B :=
  fun h => match m h with
           | inl e => inl e
           | inr (a, h') => f a h'
           end.

Notation "'let!' x := m 'in' k" := (mbind m (fun x => k))
  (at level 200, x name, m at level 100, k at level 200).

(** ** mmCIF objects (the [mmcif.api] collaborators) *)

(** [DataCategory(name, attributeList, rowList)] built from dictionary
    rows keeps, for each row, the values of the listed attributes in list
    order ([None] where the row has no such key). *)
Record category := Category {
  cat_name : string;
  cat_attrs : list string;
  cat_rows : list (list (option val))
}.

Definition DataCategory (h : heap) (name : string) (atL : list string)
    (rowList : list loc) : category :=
  Category name atL (map (fun l => map (fun a => get h l !! a) atL) rowList).

(** [DataContainer]: the categories under the names they were appended
    with ([getObjNameList], [getObj]); [setName] on a category changes the
    category's own name only. *)
Record container := Container {
  cont_name : string;
  cont_objs : list (string * category)
}.

(** [curContainer.append(obj)]: a new name is added at the end, a known
    name has its object replaced. *)
Fixpoint objs_append (cat : category) (objs : list (string * category)) :=
  match objs with
  | [] => [(cat_name cat, cat)]
  | (n, c) :: r =>
      if String.eqb n (cat_name cat) then (n, cat) :: r
      else (n, c) :: objs_append cat r
  end.

Definition cont_append (cat : category) (c : container) : container :=
  Container (cont_name c) (objs_append cat (cont_objs c)).

(** [curContainer.getObj(name)] *)
Fixpoint objs_lookup (name : string) (objs : list (string * category)) :=
  match objs with
  | [] => None
  | (n, c) :: r => if String.eqb n name then Some c else objs_lookup name r
  end.

Definition getObj (name : string) (c : container) : option category :=
  objs_lookup name (cont_objs c).

(** [catObj.renameAttributes(mapD)] and [catObj.setName(name)] *)
Definition renameAttributes (mapD : gmap string string) (cat : category) :=
  Category (cat_name cat)
    (map (fun a => default a (mapD !! a)) (cat_attrs cat)) (cat_rows cat).

Definition setName (name : string) (cat : category) :=
  Category name (cat_attrs cat) (cat_rows cat).

(** ** [__buildCif] *)

(** The per-row normalisation of the loop
    [for ii, rowD in enumerate(rowList, 1)], applied to [rowD] in place. *)
Definition norm_row (hasOrdinal : bool) (ii : Z) (rowD : attrs) : attrs :=
  let d1 := if hasOrdinal then <["ordinal" := VInt ii]> rowD else rowD in
  let d2 := match d1 !! "icode" with
            | Some v => <["icode" := VStr (strip (py_str v))]> d1
            | None => d1
            end in
  match d2 !! "altcode" with
  | Some v => <["altcode" := VStr (strip (py_str v))]> d2
  | None => d2
  end.

(** The loop itself: each row dictionary is updated on the heap and its
    keys are added to [atS]. *)
Fixpoint norm_rows (hasOrdinal : bool) (ii : Z) (rowList : list loc)
    (h : heap) (atS : gset string) : heap * gset string :=
  match rowList with
  | [] => (h, atS)
  | l :: rest =>
      let d := norm_row hasOrdinal ii (get h l) in
      norm_rows hasOrdinal (ii + 1) rest (<[l := d]> h) (atS ∪ dom d)
  end.

(** [sD = {ky: self.__atOrdD[ky] for ky in attributeNameList}] *)
Fixpoint rank_all (ordD : gmap string Z) (l : list string)
    : err + list (string * Z) :=
  match l with
  | [] => inr []
  | ky :: rest =>
      match ordD !! ky with
      | None => inl (KeyError ky)
      | Some z =>
          match rank_all ordD rest with
          | inl e => inl e
          | inr r => inr ((ky, z) :: r)
          end
      end
  end.

(** [sorted(sD.items(), key=operator.itemgetter(1))]: a stable sort on the
    rank. *)
Fixpoint insert_by_rank (x : string * Z) (l : list (string * Z)) :=
  match l with
  | [] => [x]
  | y :: r => if x.2 <=? y.2 then x :: y :: r else y :: insert_by_rank x r
  end.

Fixpoint sort_by_rank (l : list (string * Z)) : list (string * Z) :=
  match l with
  | [] => []
  | x :: r => insert_by_rank x (sort_by_rank r)
  end.

(** The skip test of the loop body:
    [(len(rD[elName]) < 1) or (len(self.__attribD[catName]) < 1)
     or (catName in ['programs'])], evaluated left to right; the lookup
    [self.__attribD[catName]] raises [KeyError] for an unregistered
    category.  [inr None] means [continue], [inr (Some al)] gives the
    attribute list of the category. *)
Definition skip_test (r : reader) (catName : string) (rowList : list loc)
    : err + option (list string) :=
  if (length rowList <? 1)%nat then inr None else
  match attribD r !! catName with
  | None => inl (KeyError catName)
  | Some al =>
      if (length al <? 1)%nat || String.eqb catName "programs" then inr None
      else inr (Some al)
  end.

(** One iteration of [for elName in rD]: [None] when skipped, otherwise
    the new [DataCategory]. *)
Definition build_category (r : reader) (catName : string) (rowList : list loc)
    : M (option category) :=
  fun h =>
    match skip_test r catName rowList with
    | inl e => inl e
    | inr None => inr (None, h)
    | inr (Some al) =>
        let hasOrdinal := bool_decide ("ordinal" ∈ al) in
        let '(h1, atS) := norm_rows hasOrdinal 1 rowList h ∅ in
        let attributeNameList := elements atS in
        match rank_all (atOrdD r) attributeNameList with
        | inl e => inl e
        | inr sD =>
            let srtAtL := map fst (sort_by_rank sD) in
            inr (Some (DataCategory h1 catName srtAtL rowList), h1)
        end
    end.

(** The first loop of [__buildCif]. *)
Fixpoint build_all (r : reader) (rD : table loc) (c : container)
    : M container :=
  match rD with
  | [] => mret c
  | (elName, rowList) :: rest =>
      let! oc := build_category r elName rowList in
      match oc with
      | None => build_all r rest c
      | Some aCat => build_all r rest (cont_append aCat c)
      end
  end.

(** Schema renaming, identity when the name is not in the schema map. *)
Definition map_cat_name (r : reader) (catName : string) : string :=
  match sm_categories r !! catName with Some n => n | None => catName end.

Definition map_at_name (r : reader) (catName atName : string) : string :=
  match sm_attributes r !! (catName, atName) with Some n => n | None => atName end.

(** One iteration of [for catName in curContainer.getObjNameList()]. *)
Definition rename_obj (r : reader) (nc : string * category) :=
  let '(catName, catObj) := nc in
  let mapD := foldl (fun m atName => <[atName := map_at_name r catName atName]> m)
                ∅ (cat_attrs catObj) in
  (catName, setName (map_cat_name r catName) (renameAttributes mapD catObj)).

Definition rename_all (r : reader) (c : container) : container :=
  Container (cont_name c) (map (rename_obj r) (cont_objs c)).

(** Provenance decoding of one [properties] value. *)
Definition decode_token (r : reader) (ky : string) : string :=
  match atMap r !! ky with Some v => v | None => ky end.

Definition decode_properties (r : reader) (pV : string) : string :=
  join_comma (map (decode_token r) (map strip (split_comma pV))).

(** [self._attributeNameList.index(name)] *)
Fixpoint index_of (a : string) (l : list string) : option nat :=
  match l with
  | [] => None
  | x :: r => if String.eqb x a then Some 0%nat else S <$> index_of a r
  end.

(** The loop [for iRow in range(catObj.getRowCount())] with [getValue] and
    [setValue] on the column at index [i]; [pV.split] fails on [None] and
    on an [int]. *)
Fixpoint decode_rows (r : reader) (i : nat) (rows : list (list (option val)))
    : err + list (list (option val)) :=
  match rows with
  | [] => inr []
  | row :: rest =>
      match row !! i with
      | None => inl IndexError
      | Some None => inl (AttributeError "NoneType")
      | Some (Some (VInt _)) => inl (AttributeError "int")
      | Some (Some (VStr pV)) =>
          match decode_rows r i rest with
          | inl e => inl e
          | inr rest' => inr (<[i := Some (VStr (decode_properties r pV))]> row :: rest')
          end
      end
  end.

(** Replace the object stored under [name] (the category object is shared
    with the container, so [setValue] is seen through it). *)
Definition objs_set (name : string) (cat : category)
    (objs : list (string * category)) :=
  map (fun nc => if String.eqb nc.1 name then (nc.1, cat) else nc) objs.

(** [__buildCif(rD, containerName='vrpt')].  Its [return [curContainer]]
    sits inside the [if catObj and catObj.hasAttribute('properties')]
    block, so the function otherwise falls off its end and returns [None];
    [Some cs] is a returned list.  A [DataCategory] is a list of rows, so
    [catObj] is true when it has rows. *)
Definition buildCif (r : reader) (rD : table loc) : M (option (list container)) :=
  let! c0 := build_all r rD (Container "vrpt" []) in
  let c := rename_all r c0 in
  match getObj "program" c with
  | Some catObj =>
      if bool_decide (cat_rows catObj <> []) && bool_decide ("properties" ∈ cat_attrs catObj)
      then
        match index_of "properties" (cat_attrs catObj) with
        | None => mthrow IndexError
        | Some i =>
            match decode_rows r i (cat_rows catObj) with
            | inl e => mthrow e
            | inr rows' =>
                let catObj' := Category (cat_name catObj) (cat_attrs catObj) rows' in
                mret (Some [Container (cont_name c) (objs_set "program" catObj' (cont_objs c))])
            end
        end
      else mret None
  | None => mret None
  end.

(** [read(xmlFilePath)]: the parsed document is given by its root element
    and the heap holding the attribute dictionaries of its elements. *)
Definition read (r : reader) (root : element) (h : heap)
    : err + (option (list container) * heap) :=
  let s := extract root h in
  buildCif r (xs_rd s) (xs_heap s).

(** ** [__parse]: the choice of opener *)

(** [filePath[-3:]]: the last three characters, or the whole string when
    it is shorter. *)
Definition py_last3 (s : string) : string :=
  let n := String.length s in
  if (n <? 3)%nat then s else String.substring (n - 3) 3 s.

Inductive opener := GzipOpen | PlainOpen.

(** [if filePath[-3:] == '.gz': gzip.open(...) else: open(...)] *)
Definition parse_opener (filePath : string) : opener :=
  if String.eqb (py_last3 filePath) ".gz" then GzipOpen else PlainOpen.

(** ** The flattening as a sequence of emitted rows *)

(** The rows emitted by [__extract], in document order, each with the
    tag of the table it is appended to: a top-level element's own
    dictionary, each child's copy with the cardinal attributes of its
    parent, and each grandchild's own dictionary. *)
Definition emissions (h : heap) (root : element) : list (string * attrs) :=
  flat_map (fun el =>
    (el_tag el, get h (el_attrib el)) ::
    flat_map (fun ch =>
      (el_tag ch, child_row (msgD_of (el_tag el) (get h (el_attrib el)))
                            (get h (el_attrib ch))) ::
      map (fun g => (el_tag g, get h (el_attrib g))) (el_children ch))
      (el_children el))
    (el_children root).

Definition group_step {A} (t : table A) (kv : string * A) : table A :=
  setdefault_append kv.1 kv.2 t.

(** The tables obtained by appending the emitted rows one by one. *)
Definition group {A} (es : list (string * A)) : table A := foldl group_step [] es.

(** A table of dictionaries read through the heap. *)
Definition read_table (h : heap) (t : table loc) : table attrs :=
  map (fun kl => (kl.1, map (get h) kl.2)) t.

(** A parsed document: every element of the three levels read by
    [__extract] has its attribute dictionary on the heap. *)
Definition tree_wf (root : element) (h : heap) : Prop :=
  Forall (fun el => is_Some (h !! el_attrib el) /\
    Forall (fun ch => is_Some (h !! el_attrib ch) /\
      Forall (fun g => is_Some (h !! el_attrib g)) (el_children ch))
      (el_children el))
    (el_children root).

(** * Proofs *)

Section Extraction.

Definition table_ok (H : heap) (t : table loc) : Prop :=
  forall kl l, kl ∈ t -> l ∈ kl.2 -> is_Some (H !! l).

Definition xinv (h0 : heap) (s : xstate) : Prop :=
  h0 ⊆ xs_heap s /\ table_ok (xs_heap s) (xs_rd s).

Definition RT (s : xstate) : table attrs := read_table (xs_heap s) (xs_rd s).

Lemma setdefault_append_elem {A} (k : string) (v : A) (t : table A) kl x :
  kl ∈ setdefault_append k v t -> x ∈ kl.2 ->
  x = v \/ exists kl0, kl0 ∈ t /\ x ∈ kl0.2.
Proof.
  induction t as [|[k' vs] t IH]; simpl.
  - intros Hkl Hx. apply list_elem_of_singleton in Hkl. subst kl. simpl in Hx.
    apply list_elem_of_singleton in Hx. by left.
  - destruct (String.eqb k k').
    + intros Hkl Hx. apply elem_of_cons in Hkl as [->|Hkl]; simpl in Hx.
      * apply elem_of_app in Hx as [Hx|Hx].
        -- right. exists (k', vs). split; [left|done].
        -- apply list_elem_of_singleton in Hx. by left.
      * right. exists kl. split; [by right|done].
    + intros Hkl Hx. apply elem_of_cons in Hkl as [->|Hkl].
      * right. exists (k', vs). split; [left|done].
      * destruct (IH Hkl Hx) as [?|[kl0 [? ?]]]; [by left|].
        right. exists kl0. split; [by right|done].
Qed.

Lemma read_table_setdefault_append (h : heap) k l (t : table loc) :
  read_table h (setdefault_append k l t) =
  setdefault_append k (get h l) (read_table h t).
Proof.
  induction t as [|[k' ls] t IH]; simpl; [done|].
  destruct (String.eqb k k'); simpl.
  - by rewrite map_app.
  - by rewrite IH.
Qed.

Lemma read_table_insert_fresh (H : heap) (t : table loc) l d :
  table_ok H t -> H !! l = None ->
  read_table (<[l := d]> H) t = read_table H t.
Proof.
  intros Hok Hl. unfold read_table. apply map_ext_in. intros kl Hkl.
  f_equal. apply map_ext_in. intros l' Hl'.
  destruct (Hok kl l') as [v Hv]; [by apply list_elem_of_In|by apply list_elem_of_In|].
  unfold get. rewrite lookup_insert_ne; [done|]. intros ->. congruence.
Qed.

Lemma get_weaken (h0 H : heap) l :
  h0 ⊆ H -> is_Some (h0 !! l) -> get H l = get h0 l.
Proof.
  intros Hsub [v Hv]. unfold get. rewrite Hv. by rewrite (lookup_weaken h0 H l v).
Qed.

Lemma xappend_inv h0 s k l :
  xinv h0 s -> is_Some (xs_heap s !! l) -> xinv h0 (xappend k l s).
Proof.
  intros [Hsub Hok] Hl. split; [done|]. simpl.
  intros kl x Hkl Hx.
  destruct (setdefault_append_elem k l (xs_rd s) kl x Hkl Hx) as [->|[kl0 [? ?]]];
    [done|by eapply Hok].
Qed.

Lemma xappend_RT s k l :
  RT (xappend k l s) = setdefault_append k (get (xs_heap s) l) (RT s).
Proof. apply read_table_setdefault_append. Qed.

Lemma extract_grandchildren_spec h0 (gs : list element) s :
  xinv h0 s -> Forall (fun g => is_Some (h0 !! el_attrib g)) gs ->
  xinv h0 (extract_grandchildren gs s) /\
  RT (extract_grandchildren gs s) =
  foldl group_step (RT s) (map (fun g => (el_tag g, get h0 (el_attrib g))) gs).
Proof.
  revert s. induction gs as [|g gs IH]; intros s Hinv Hgs; simpl; [done|].
  apply Forall_cons in Hgs as [Hg Hgs].
  assert (HH : is_Some (xs_heap s !! el_attrib g)).
  { destruct Hg as [v Hv]. exists v. eapply lookup_weaken; [done|apply Hinv]. }
  destruct (IH (xappend (el_tag g) (el_attrib g) s)) as [Hi Hr];
    [by apply xappend_inv|done|].
  unfold extract_grandchildren in *. simpl. split; [done|].
  rewrite Hr, xappend_RT. unfold group_step at 2. simpl.
  by rewrite (get_weaken h0); [|apply Hinv|].
Qed.

Lemma extract_child_spec h0 (el ch : element) s :
  xinv h0 s -> is_Some (h0 !! el_attrib el) -> is_Some (h0 !! el_attrib ch) ->
  Forall (fun g => is_Some (h0 !! el_attrib g)) (el_children ch) ->
  xinv h0 (extract_child el s ch) /\
  RT (extract_child el s ch) =
  foldl group_step (RT s)
    ((el_tag ch, child_row (msgD_of (el_tag el) (get h0 (el_attrib el)))
                           (get h0 (el_attrib ch))) ::
     map (fun g => (el_tag g, get h0 (el_attrib g))) (el_children ch)).
Proof.
  intros [Hsub Hok] Hel Hch Hgs. destruct s as [rd H]. simpl in *.
  unfold extract_child, xalloc. simpl.
  set (l := fresh (dom H)).
  assert (Hl : H !! l = None) by (apply not_elem_of_dom; apply is_fresh).
  set (d := child_row (msgD_of (el_tag el) (get H (el_attrib el))) (get H (el_attrib ch))).
  set (s1 := XState rd (<[l := d]> H)).
  assert (Hinv1 : xinv h0 s1).
  { split; simpl.
    - etrans; [done|]. by apply insert_subseteq.
    - intros kl x Hkl Hx. destruct (Hok kl x Hkl Hx) as [v Hv].
      rewrite lookup_insert_is_Some'. by right. }
  assert (Hinv2 : xinv h0 (xappend (el_tag ch) l s1)).
  { apply xappend_inv; [done|]. simpl. rewrite lookup_insert_is_Some'. by left. }
  destruct (extract_grandchildren_spec h0 (el_children ch) _ Hinv2 Hgs) as [Hi Hr].
  split; [done|]. rewrite Hr, xappend_RT. simpl.
  unfold RT at 1. simpl. rewrite read_table_insert_fresh by done.
  unfold group_step at 2. simpl. f_equal. f_equal.
  unfold get at 1. rewrite lookup_insert_eq. simpl. unfold d.
  by rewrite !(get_weaken h0 H).
Qed.

Lemma extract_children_spec h0 (el : element) (chs : list element) s :
  xinv h0 s -> is_Some (h0 !! el_attrib el) ->
  Forall (fun ch => is_Some (h0 !! el_attrib ch) /\
    Forall (fun g => is_Some (h0 !! el_attrib g)) (el_children ch)) chs ->
  xinv h0 (foldl (extract_child el) s chs) /\
  RT (foldl (extract_child el) s chs) =
  foldl group_step (RT s)
    (flat_map (fun ch =>
      (el_tag ch, child_row (msgD_of (el_tag el) (get h0 (el_attrib el)))
                            (get h0 (el_attrib ch))) ::
      map (fun g => (el_tag g, get h0 (el_attrib g))) (el_children ch)) chs).
Proof.
  revert s. induction chs as [|ch chs IH]; intros s Hinv Hel Hchs; simpl; [done|].
  apply Forall_cons in Hchs as [[Hch Hgs] Hchs].
  destruct (extract_child_spec h0 el ch s Hinv Hel Hch Hgs) as [Hi Hr].
  destruct (IH _ Hi Hel Hchs) as [Hi' Hr']. split; [done|].
  rewrite Hr', Hr. by rewrite <- foldl_app.
Qed.

Lemma extract_spec (root : element) (h : heap) :
  tree_wf root h ->
  h ⊆ xs_heap (extract root h) /\
  RT (extract root h) = group (emissions h root).
Proof.
  intros Hwf. unfold extract, emissions, group.
  assert (Hgen : forall (els : list element) s,
    xinv h s ->
    Forall (fun el => is_Some (h !! el_attrib el) /\
      Forall (fun ch => is_Some (h !! el_attrib ch) /\
        Forall (fun g => is_Some (h !! el_attrib g)) (el_children ch))
        (el_children el)) els ->
    xinv h (foldl extract_top s els) /\
    RT (foldl extract_top s els) =
    foldl group_step (RT s)
      (flat_map (fun el =>
        (el_tag el, get h (el_attrib el)) ::
        flat_map (fun ch =>
          (el_tag ch, child_row (msgD_of (el_tag el) (get h (el_attrib el)))
                                (get h (el_attrib ch))) ::
          map (fun g => (el_tag g, get h (el_attrib g))) (el_children ch))
          (el_children el)) els)).
  { induction els as [|el els IH]; intros s Hinv Hels; simpl; [done|].
    apply Forall_cons in Hels as [[Hel Hchs] Hels].
    assert (Hinv1 : xinv h (xappend (el_tag el) (el_attrib el) s)).
    { apply xappend_inv; [done|]. destruct Hel as [v Hv]. exists v.
      eapply lookup_weaken; [done|apply Hinv]. }
    destruct (extract_children_spec h el (el_children el) _ Hinv1 Hel Hchs) as [Hi Hr].
    destruct (IH _ Hi Hels) as [Hi' Hr'].
    change (extract_top s el) with
      (foldl (extract_child el) (xappend (el_tag el) (el_attrib el) s) (el_children el)).
    split; [done|]. rewrite Hr', Hr, xappend_RT, <- foldl_app. simpl.
    unfold group_step at 3. simpl. by rewrite (get_weaken h); [|apply Hinv|]. }
  destruct (Hgen (el_children root) (XState [] h)) as [[Hsub _] Hr]; [|done|].
  - split; simpl; [done|]. intros kl l Hkl. by apply not_elem_of_nil in Hkl.
  - split; [done|]. rewrite Hr. done.
Qed.

Lemma child_row_fold_lookup (msgD d : attrs) (L : list string) key :
  foldl (fun d k => match msgD !! k with
                    | Some v => <[k := v]> d
                    | None => d
                    end) d L !! key =
  if bool_decide (key ∈ L) then
    match msgD !! key with Some v => Some v | None => d !! key end
  else d !! key.
Proof.
  revert d. induction L as [|x L IH]; intros d; simpl; [done|].
  rewrite IH. clear IH.
  destruct (bool_decide_reflect (key ∈ L)) as [HL|HL];
  destruct (bool_decide_reflect (key ∈ x :: L)) as [HxL|HxL];
  try (exfalso; apply HxL; by right).
  - destruct (msgD !! key) eqn:Ek; [done|].
    destruct (msgD !! x) eqn:Ex; [|done].
    rewrite lookup_insert_ne; [done|]. intros ->. congruence.
  - apply elem_of_cons in HxL as [->|HxL]; [|done].
    destruct (msgD !! x) eqn:Ek; [by rewrite lookup_insert_eq|done].
  - destruct (msgD !! x) eqn:Ex; [|done].
    rewrite lookup_insert_ne; [done|]. intros ->. apply HxL. left.
Qed.

Lemma child_row_lookup (msgD cA : attrs) k :
  child_row msgD cA !! k =
  if bool_decide (k ∈ atL) then
    match msgD !! k with Some v => Some v | None => cA !! k end
  else cA !! k.
Proof. apply child_row_fold_lookup. Qed.

End Extraction.

(** ** Claims about [__extract] *)

(** The scenario document: a [ModelledSubgroup] with [chain="1"] and one
    child [B] with [y="2"]. *)
Definition scen_root : element :=
  Element "root" 1 [Element "ModelledSubgroup" 2 [Element "B" 3 []]].

Definition scen_heap : heap :=
  <[3%positive := <["y" := VStr "2"]> ∅]>
  (<[2%positive := <["chain" := VStr "1"]> ∅]>
  (<[1%positive := ∅]> ∅)).

(** C6: the tables of [__extract], read through the heap, are the rows of
    [emissions] grouped by tag in document order: a child's row is its own
    attributes overlaid with those cardinal attributes that its
    [ModelledSubgroup] parent has, a grandchild's row is its own dictionary
    unchanged.  In the scenario, category [B] gets the row
    [{y:"2", chain:"1"}]. *)
Theorem flatten_child_rows (root : element) (h : heap) (Hwf : tree_wf root h) :
  read_table (xs_heap (extract root h)) (xs_rd (extract root h)) =
    group (emissions h root) /\
  (forall (pA cA : attrs) k,
     child_row (msgD_of "ModelledSubgroup" pA) cA !! k =
     if bool_decide (k ∈ atL) then
       match pA !! k with Some v => Some v | None => cA !! k end
     else cA !! k) /\
  read_table (xs_heap (extract scen_root scen_heap)) (xs_rd (extract scen_root scen_heap)) =
    [("ModelledSubgroup", [<["chain" := VStr "1"]> ∅]);
     ("B", [<["y" := VStr "2"]> (<["chain" := VStr "1"]> ∅)])].
Proof.
  split; [apply (extract_spec root h Hwf)|]. split.
  - intros pA cA k. rewrite child_row_lookup. reflexivity.
  - vm_compute. reflexivity.
Qed.

Lemma flatten_child_rows_witness :
  tree_wf scen_root scen_heap /\
  read_table (xs_heap (extract scen_root scen_heap)) (xs_rd (extract scen_root scen_heap)) =
    group (emissions scen_heap scen_root).
Proof.
  assert (Hwf : tree_wf scen_root scen_heap)
    by (repeat constructor; vm_compute; eexists; reflexivity).
  split; [exact Hwf|].
  exact (proj1 (flatten_child_rows scen_root scen_heap Hwf)).
Defined.

(** C10: propagation happens exactly for a top-level [ModelledSubgroup],
    over exactly the eight cardinal attributes, and the parent's value wins
    on a key the child also has; any other parent's children keep their
    own attributes. *)
Theorem cardinal_propagation_exact (root : element) (h : heap) (Hwf : tree_wf root h) :
  read_table (xs_heap (extract root h)) (xs_rd (extract root h)) =
    group (emissions h root) /\
  (forall ptag (pA cA : attrs) k,
     child_row (msgD_of ptag pA) cA !! k =
     if String.eqb ptag "ModelledSubgroup" &&
        bool_decide (k ∈ ["altcode"; "chain"; "ent"; "model"; "resname";
                          "resnum"; "said"; "seq"])
     then match pA !! k with Some v => Some v | None => cA !! k end
     else cA !! k).
Proof.
  split; [apply (extract_spec root h Hwf)|].
  intros ptag pA cA k. rewrite child_row_lookup. unfold msgD_of.
  destruct (String.eqb ptag "ModelledSubgroup"); simpl.
  - reflexivity.
  - rewrite lookup_empty. by destruct (bool_decide _).
Qed.

Lemma cardinal_propagation_exact_witness :
  tree_wf scen_root scen_heap /\
  read_table (xs_heap (extract scen_root scen_heap)) (xs_rd (extract scen_root scen_heap)) =
    group (emissions scen_heap scen_root).
Proof.
  assert (Hwf : tree_wf scen_root scen_heap)
    by (repeat constructor; vm_compute; eexists; reflexivity).
  split; [exact Hwf|].
  exact (proj1 (cardinal_propagation_exact scen_root scen_heap Hwf)).
Defined.

(** ** Schema renaming *)

Section Renaming.

Variable r : reader.

Lemma mapD_lookup (n : string) (l : list string) (m : gmap string string) a :
  foldl (fun m atName => <[atName := map_at_name r n atName]> m) m l !! a =
  if bool_decide (a ∈ l) then Some (map_at_name r n a) else m !! a.
Proof.
  revert m. induction l as [|x l IH]; intros m; simpl; [done|].
  rewrite IH.
  destruct (bool_decide_reflect (a ∈ l)) as [Hl|Hl];
  destruct (bool_decide_reflect (a ∈ x :: l)) as [Hxl|Hxl];
  try (exfalso; apply Hxl; by right); [done| |].
  - apply elem_of_cons in Hxl as [->|Hxl]; [|done].
    by rewrite lookup_insert_eq.
  - rewrite lookup_insert_ne; [done|]. intros ->. apply Hxl. left.
Qed.

Lemma rename_obj_eq (n : string) (cat : category) :
  rename_obj r (n, cat) =
  (n, Category (map_cat_name r n) (map (map_at_name r n) (cat_attrs cat))
               (cat_rows cat)).
Proof.
  unfold rename_obj, setName, renameAttributes. simpl. f_equal. f_equal.
  apply map_ext_in. intros a Ha. rewrite mapD_lookup.
  rewrite bool_decide_eq_true_2; [done|]. by apply list_elem_of_In.
Qed.

Lemma rename_all_objs (c : container) :
  cont_objs (rename_all r c) =
  map (fun nc => (nc.1, Category (map_cat_name r nc.1)
                          (map (map_at_name r nc.1) (cat_attrs nc.2))
                          (cat_rows nc.2)))
      (cont_objs c).
Proof.
  simpl. apply map_ext. intros [n cat]. apply rename_obj_eq.
Qed.


End Renaming.

Lemma objs_append_keys (cat : category) objs :
  Forall (fun nc => cat_name nc.2 = nc.1) objs ->
  Forall (fun nc => cat_name nc.2 = nc.1) (objs_append cat objs).
Proof.
  induction objs as [|[n c] objs IH]; intros Hall; simpl.
  - by repeat constructor.
  - apply Forall_cons in Hall as [Hc Hall].
    destruct (String.eqb n (cat_name cat)) eqn:E.
    + apply String.eqb_eq in E. constructor; [done|done].
    + constructor; [done|]. by apply IH.
Qed.

Lemma build_category_name r catName rowList h cat h' :
  build_category r catName rowList h = inr (Some cat, h') -> cat_name cat = catName.
Proof.
  unfold build_category.
  destruct (skip_test r catName rowList) as [e|[al|]]; [done| |done].
  destruct (norm_rows _ _ _ _ _) as [h1 atS].
  destruct (rank_all _ _); [done|]. intros [= <- _]. done.
Qed.

Lemma build_all_keys r rD c h c' h' :
  Forall (fun nc => cat_name nc.2 = nc.1) (cont_objs c) ->
  build_all r rD c h = inr (c', h') ->
  Forall (fun nc => cat_name nc.2 = nc.1) (cont_objs c').
Proof.
  revert c h. induction rD as [|[elName rowList] rD IH]; intros c h Hc; simpl.
  - intros [= <- _]. done.
  - unfold mbind. destruct (build_category r elName rowList h) as [e|[[cat|] h1]] eqn:Eb;
      [done| |by apply IH].
    apply IH. unfold cont_append. simpl. by apply objs_append_keys.
Qed.

(** ** Row normalisation, ranking and sorting *)

Section Building.

Lemma norm_row_dom b ii (d : attrs) : dom d ⊆ dom (norm_row b ii d).
Proof.
  unfold norm_row.
  destruct b; [destruct ((<["ordinal" := VInt ii]> d) !! "icode")|destruct (d !! "icode")];
  repeat match goal with
  | |- context [match ?x with Some _ => _ | None => _ end] => destruct x
  end; rewrite ?dom_insert; set_solver.
Qed.


Lemma norm_rows_other b ii (rows : list loc) h atS l :
  l ∉ rows -> get (norm_rows b ii rows h atS).1 l = get h l.
Proof.
  revert ii h atS. induction rows as [|l' rows IH]; intros ii h atS Hl; simpl; [done|].
  apply not_elem_of_cons in Hl as [Hne Hl]. rewrite IH by done.
  unfold get at 1. by rewrite lookup_insert_ne.
Qed.

Lemma norm_rows_mono b ii (rows : list loc) h atS l :
  dom (get h l) ⊆ dom (get (norm_rows b ii rows h atS).1 l).
Proof.
  revert ii h atS. induction rows as [|l' rows IH]; intros ii h atS; simpl; [done|].
  etrans; [|apply IH]. unfold get at 2.
  destruct (decide (l = l')) as [->|Hne].
  - rewrite lookup_insert_eq. simpl. apply norm_row_dom.
  - by rewrite lookup_insert_ne.
Qed.

Lemma norm_rows_keys b ii (rows : list loc) h atS :
  atS ⊆ (norm_rows b ii rows h atS).2 /\
  forall l, l ∈ rows -> dom (get h l) ⊆ (norm_rows b ii rows h atS).2.
Proof.
  revert ii h atS. induction rows as [|l' rows IH]; intros ii h atS; simpl.
  - split; [done|]. intros l Hl. by apply not_elem_of_nil in Hl.
  - destruct (IH (ii + 1) (<[l' := norm_row b ii (get h l')]> h)
                 (atS ∪ dom (norm_row b ii (get h l')))) as [H1 H2].
    split; [set_solver|].
    intros l Hl. apply elem_of_cons in Hl as [->|Hl].
    + etrans; [apply (norm_row_dom b ii)|]. set_solver.
    + etrans; [|apply H2; done]. unfold get at 2.
      destruct (decide (l = l')) as [->|Hne].
      * rewrite lookup_insert_eq. simpl. apply norm_row_dom.
      * by rewrite lookup_insert_ne.
Qed.

Lemma norm_rows_keys_sound b ii (rows : list loc) h atS c :
  c ∈ (norm_rows b ii rows h atS).2 ->
  c ∈ atS \/ exists l, l ∈ rows /\ c ∈ dom (get (norm_rows b ii rows h atS).1 l).
Proof.
  revert ii h atS. induction rows as [|l' rows IH]; intros ii h atS; simpl; [by left|].
  intros Hc. destruct (IH _ _ _ Hc) as [Hc'|[l [Hl Hcl]]].
  - apply elem_of_union in Hc' as [?|Hd]; [by left|].
    right. exists l'. split; [left|].
    eapply norm_rows_mono. unfold get at 1. by rewrite lookup_insert_eq.
  - right. exists l. split; [by right|done].
Qed.


Lemma rank_all_ranks (ordD : gmap string Z) (L : list string) sD :
  rank_all ordD L = inr sD ->
  Forall (fun p => ordD !! p.1 = Some p.2) sD /\ map fst sD = L.
Proof.
  revert sD. induction L as [|x L IH]; intros sD; simpl.
  - intros [= <-]. done.
  - destruct (ordD !! x) as [z|] eqn:Ex; [|done].
    destruct (rank_all ordD L) as [e|sD'] eqn:E; [done|].
    intros [= <-]. destruct (IH sD' eq_refl) as [Hf Hm].
    split; [by constructor|]. simpl. by rewrite Hm.
Qed.

Lemma rank_all_fail (ordD : gmap string Z) (L : list string) x :
  x ∈ L -> ordD !! x = None -> exists k, rank_all ordD L = inl (KeyError k).
Proof.
  induction L as [|y L IH]; intros Hx Hn; [by apply not_elem_of_nil in Hx|]. simpl.
  destruct (ordD !! y) as [z|] eqn:Ey; [|by eexists].
  apply elem_of_cons in Hx as [->|Hx]; [congruence|].
  destruct (IH Hx Hn) as [k ->]. by eexists.
Qed.

Definition rank_le (p q : string * Z) : Prop := p.2 <= q.2.

Lemma insert_by_rank_perm x (l : list (string * Z)) : insert_by_rank x l ≡ₚ x :: l.
Proof.
  induction l as [|y l IH]; simpl; [done|].
  destruct (x.2 <=? y.2); [done|]. rewrite IH. constructor.
Qed.

Lemma sort_by_rank_perm (l : list (string * Z)) : sort_by_rank l ≡ₚ l.
Proof.
  induction l as [|x l IH]; simpl; [done|]. by rewrite insert_by_rank_perm, IH.
Qed.

Lemma insert_by_rank_sorted x (l : list (string * Z)) :
  StronglySorted rank_le l -> StronglySorted rank_le (insert_by_rank x l).
Proof.
  induction l as [|y l IH]; simpl; intros Hs.
  - repeat constructor.
  - apply StronglySorted_inv in Hs as [Hs Hy].
    destruct (x.2 <=? y.2) eqn:E.
    + apply Z.leb_le in E. constructor; [by constructor|].
      constructor; [done|]. eapply Forall_impl; [exact Hy|].
      unfold rank_le. intros z Hz. lia.
    + apply Z.leb_gt in E. constructor; [by apply IH|].
      rewrite insert_by_rank_perm.
      constructor; [unfold rank_le; lia|done].
Qed.

Lemma sort_by_rank_sorted (l : list (string * Z)) :
  StronglySorted rank_le (sort_by_rank l).
Proof.
  induction l as [|x l IH]; simpl; [constructor|]. by apply insert_by_rank_sorted.
Qed.

Lemma StronglySorted_lookup_lt (l : list (string * Z)) (i j : nat) p q :
  StronglySorted rank_le l -> (i < j)%nat -> l !! i = Some p -> l !! j = Some q ->
  rank_le p q.
Proof.
  revert i j. induction l as [|x l IH]; intros i j Hs Hij Hi Hj; [done|].
  apply StronglySorted_inv in Hs as [Hs Hx].
  destruct i as [|i]; destruct j as [|j]; simpl in *; [lia| |lia|].
  - injection Hi as <-. rewrite Forall_lookup in Hx. by apply (Hx j).
  - apply (IH i j); [done|lia|done|done].
Qed.

Lemma norm_rows_final_keys b ii (rows : list loc) h atS l :
  l ∈ rows -> dom (get (norm_rows b ii rows h atS).1 l) ⊆ (norm_rows b ii rows h atS).2.
Proof.
  revert ii h atS. induction rows as [|l' rows IH]; intros ii h atS Hl;
    [by apply not_elem_of_nil in Hl|]. simpl.
  destruct (decide (l ∈ rows)) as [Hin|Hnin]; [by apply IH|].
  apply elem_of_cons in Hl as [->|?]; [|done].
  rewrite norm_rows_other by done. unfold get at 1. rewrite lookup_insert_eq. simpl.
  etrans; [|apply (proj1 (norm_rows_keys b (ii + 1) rows _ _))]. set_solver.
Qed.

Lemma build_category_some r catName (rowList : list loc) h cat h' :
  build_category r catName rowList h = inr (Some cat, h') ->
  exists al sD,
    skip_test r catName rowList = inr (Some al) /\
    h' = (norm_rows (bool_decide ("ordinal" ∈ al)) 1 rowList h ∅).1 /\
    rank_all (atOrdD r)
      (elements (norm_rows (bool_decide ("ordinal" ∈ al)) 1 rowList h ∅).2) = inr sD /\
    cat = DataCategory h' catName (map fst (sort_by_rank sD)) rowList.
Proof.
  unfold build_category.
  destruct (skip_test r catName rowList) as [e|[al|]]; [done| |done].
  destruct (norm_rows _ _ _ _ _) as [h1 atS] eqn:En.
  destruct (rank_all _ _) as [e|sD] eqn:Er; [done|].
  intros [= <- <-]. exists al, sD. by rewrite En.
Qed.

Lemma build_category_columns r catName (rowList : list loc) h cat h' :
  build_category r catName rowList h = inr (Some cat, h') ->
  exists sD,
    cat_attrs cat = map fst (sort_by_rank sD) /\
    Forall (fun p => atOrdD r !! p.1 = Some p.2) sD /\
    NoDup (cat_attrs cat) /\
    (forall c, c ∈ cat_attrs cat <-> exists l, l ∈ rowList /\ c ∈ dom (get h' l)).
Proof.
  intros Hb. destruct (build_category_some _ _ _ _ _ _ Hb) as (al & sD & _ & Hh & Hr & ->).
  destruct (rank_all_ranks _ _ _ Hr) as [Hf Hm].
  exists sD. simpl. split; [done|]. split; [done|].
  assert (Hp : map fst (sort_by_rank sD) ≡ₚ
               elements (norm_rows (bool_decide ("ordinal" ∈ al)) 1 rowList h ∅).2)
    by (rewrite sort_by_rank_perm; by rewrite Hm).
  split.
  - rewrite Hp. apply NoDup_elements.
  - intros c. rewrite Hp, elem_of_elements. subst h'. split.
    + intros Hc. destruct (norm_rows_keys_sound _ _ _ _ _ _ Hc) as [Hc'|Hc'];
        [set_solver|done].
    + intros [l [Hl Hc]]. by eapply norm_rows_final_keys.
Qed.

Lemma build_category_mono r catName (rowList : list loc) h o h' l :
  build_category r catName rowList h = inr (o, h') ->
  dom (get h l) ⊆ dom (get h' l).
Proof.
  unfold build_category.
  destruct (skip_test r catName rowList) as [e|[al|]]; [done| |by intros [= _ <-]].
  destruct (norm_rows _ _ _ _ _) as [h1 atS] eqn:En.
  destruct (rank_all _ _) as [e|sD]; [done|]. intros [= _ <-].
  pose proof (norm_rows_mono (bool_decide ("ordinal" ∈ al)) 1 rowList h ∅ l) as Hm.
  by rewrite En in Hm.
Qed.

Lemma build_category_error r catName (rowList : list loc) h e :
  build_category r catName rowList h = inl e -> exists k, e = KeyError k.
Proof.
  unfold build_category, skip_test.
  destruct (length rowList <? 1)%nat; [done|].
  destruct (attribD r !! catName) as [al|]; [|intros [= <-]; by eexists].
  destruct ((length al <? 1)%nat || String.eqb catName "programs"); [done|].
  destruct (norm_rows _ _ _ _ _) as [h1 atS].
  destruct (rank_all _ _) as [e'|sD] eqn:Er; [|done]. intros [= <-].
  revert Er. generalize (elements atS). intros L. revert e'.
  induction L as [|x L IH]; intros e' Er; simpl in Er; [done|].
  destruct (atOrdD r !! x); [|injection Er as <-; by eexists].
  destruct (rank_all _ L) eqn:E; [injection Er as <-; by apply (IH _ eq_refl)|done].
Qed.

Lemma build_category_unranked r catName (rowList : list loc) h al l c :
  skip_test r catName rowList = inr (Some al) -> l ∈ rowList ->
  c ∈ dom (get h l) -> atOrdD r !! c = None ->
  exists k, build_category r catName rowList h = inl (KeyError k).
Proof.
  intros Hs Hl Hc Hn. unfold build_category. rewrite Hs.
  destruct (norm_rows _ _ _ _ _) as [h1 atS] eqn:En.
  destruct (rank_all_fail (atOrdD r) (elements atS) c) as [k Hk]; [|done|].
  - apply elem_of_elements.
    pose proof (proj2 (norm_rows_keys (bool_decide ("ordinal" ∈ al)) 1 rowList h ∅) l Hl)
      as Hk. rewrite En in Hk. set_solver.
  - rewrite Hk. by eexists.
Qed.

Lemma build_all_unranked r (rD : table loc) catName (rowList : list loc) al l c :
  (catName, rowList) ∈ rD ->
  skip_test r catName rowList = inr (Some al) -> l ∈ rowList -> atOrdD r !! c = None ->
  forall cont h, c ∈ dom (get h l) ->
  exists k, build_all r rD cont h = inl (KeyError k).
Proof.
  intros Hin Hs Hl Hn. induction rD as [|[n rows] rD IH]; intros cont h Hc;
    [by apply not_elem_of_nil in Hin|].
  simpl. unfold mbind.
  apply elem_of_cons in Hin as [Heq|Hin].
  - injection Heq as <- <-.
    destruct (build_category_unranked _ _ _ h _ _ _ Hs Hl Hc Hn) as [k ->]. by eexists.
  - destruct (build_category r n rows h) as [e|[o h1]] eqn:Eb.
    + destruct (build_category_error _ _ _ _ _ Eb) as [k ->]. by eexists.
    + assert (Hc1 : c ∈ dom (get h1 l)) by (eapply build_category_mono; eauto).
      destruct o; by apply IH.
Qed.

Lemma skip_test_some r catName (rowList : list loc) al :
  skip_test r catName rowList = inr (Some al) ->
  attribD r !! catName = Some al /\ rowList <> [] /\ al <> [] /\ catName <> "programs".
Proof.
  unfold skip_test. destruct rowList as [|l0 rows]; [done|]. simpl.
  destruct (attribD r !! catName) as [al'|]; [|done].
  destruct al' as [|a al']; [done|]. simpl.
  destruct (String.eqb catName "programs") eqn:E; [done|].
  intros [= <-]. apply String.eqb_neq in E. done.
Qed.

Lemma skip_test_emit r catName (rowList : list loc) al :
  attribD r !! catName = Some al -> rowList <> [] -> al <> [] -> catName <> "programs" ->
  skip_test r catName rowList = inr (Some al).
Proof.
  intros Hal Hr Hne Hp. unfold skip_test.
  destruct rowList as [|l0 rows]; [done|]. simpl. rewrite Hal.
  destruct al as [|a al]; [done|]. simpl.
  apply String.eqb_neq in Hp. by rewrite Hp.
Qed.

End Building.

(** ** A reader configuration and documents for concrete runs *)

Definition w_reader : reader :=
  Reader
    (<["ModelledSubgroup" := "pdbx_vrpt_model_instance"]>
     (<["program" := "pdbx_vrpt_program"]> ∅))
    (<[("ModelledSubgroup", "ordinal") := "ordinal"]>
     (<[("ModelledSubgroup", "chain") := "auth_asym_id"]>
     (<[("ModelledSubgroup", "icode") := "PDB_ins_code"]>
     (<[("ModelledSubgroup", "altcode") := "label_alt_id"]>
     (<[("program", "name") := "name"]>
     (<[("program", "properties") := "properties"]> ∅))))))
    (<["ordinal" := 1]> (<["chain" := 2]> (<["icode" := 3]>
     (<["altcode" := 4]> (<["name" := 5]> (<["properties" := 6]> ∅))))))
    (<["ramachandran" := "Ramachandran outliers"]> ∅).

(** One residue: [<ModelledSubgroup chain="A" icode=" " altcode=" "/>]. *)
Definition w_root : element :=
  Element "wwPDB-validation-information" 1 [Element "ModelledSubgroup" 2 []].

Definition w_heap : heap :=
  <[2%positive := <["chain" := VStr "A"]> (<["icode" := VStr " "]>
                  (<["altcode" := VStr " "]> ∅))]>
  (<[1%positive := ∅]> ∅).

Definition w_rd : table loc := xs_rd (extract w_root w_heap).
Definition w_xheap : heap := xs_heap (extract w_root w_heap).

Definition res_value {A} (x : err + (A * heap)) : err + A :=
  match x with inl e => inl e | inr (a, _) => inr a end.

Definition res_heap {A} (x : err + (A * heap)) : heap :=
  match x with inl _ => ∅ | inr (_, h) => h end.

Definition cont_of (x : err + (container * heap)) : container :=
  match x with inl _ => Container "" [] | inr (c, _) => c end.

Definition w_built : err + (container * heap) :=
  build_all w_reader w_rd (Container "vrpt" []) w_xheap.

(** ** Claims about the renaming *)



(** C8: columns are renamed through the attribute table keyed by the
    category's original name (the name it was built and appended under,
    which is also its own name before renaming), and the category name is
    translated afterwards; each column goes through the table once. *)
Theorem rename_keyed_by_source_name (r : reader) (rD : table loc) (h : heap)
    (c : container) (h' : heap)
    (Hb : build_all r rD (Container "vrpt" []) h = inr (c, h')) :
  Forall (fun nc => cat_name nc.2 = nc.1) (cont_objs c) /\
  cont_objs (rename_all r c) =
  map (fun nc => (nc.1, Category (map_cat_name r nc.1)
                          (map (map_at_name r nc.1) (cat_attrs nc.2))
                          (cat_rows nc.2)))
      (cont_objs c).
Proof.
  split.
  - eapply build_all_keys; [|exact Hb]. simpl. constructor.
  - apply rename_all_objs.
Qed.

Lemma rename_keyed_by_source_name_witness :
  w_built = inr (cont_of w_built, res_heap w_built) /\
  Forall (fun nc => cat_name nc.2 = nc.1) (cont_objs (cont_of w_built)) /\
  cont_objs (rename_all w_reader (cont_of w_built)) =
  map (fun nc => (nc.1, Category (map_cat_name w_reader nc.1)
                          (map (map_at_name w_reader nc.1) (cat_attrs nc.2))
                          (cat_rows nc.2)))
      (cont_objs (cont_of w_built)).
Proof.
  assert (Hb : w_built = inr (cont_of w_built, res_heap w_built))
    by (vm_compute; reflexivity).
  split; [exact Hb|].
  exact (rename_keyed_by_source_name w_reader w_rd w_xheap _ _ Hb).
Defined.

(** ** Claims about the category builder *)

(** C4: a category that is not skipped (it has rows, a registered
    non-empty attribute list and is not [programs]) and has a row with a
    column missing from the attribute order table makes [__buildCif] raise
    a [KeyError]: no container is returned. *)
Theorem unranked_column_raises (r : reader) (rD : table loc) (h : heap)
    (catName : string) (rowList : list loc) (al : list string) (l : loc) (c : string)
    (Hin : (catName, rowList) ∈ rD) (Hrows : rowList <> [])
    (Hal : attribD r !! catName = Some al) (Hne : al <> [])
    (Hprog : catName <> "programs") (Hl : l ∈ rowList)
    (Hc : c ∈ dom (get h l)) (Hrank : atOrdD r !! c = None) :
  exists k, buildCif r rD h = inl (KeyError k).
Proof.
  pose proof (skip_test_emit r catName rowList al Hal Hrows Hne Hprog) as Hs.
  destruct (build_all_unranked r rD catName rowList al l c Hin Hs Hl Hrank
              (Container "vrpt" []) h Hc) as [k Hk].
  exists k. unfold buildCif, mbind. by rewrite Hk.
Qed.

(** A residue carrying an attribute [rsrz] that has no rank. *)
Definition w_heap_unranked : heap :=
  <[2%positive := <["chain" := VStr "A"]> (<["rsrz" := VStr "0.5"]> ∅)]>
  (<[1%positive := ∅]> ∅).

Lemma unranked_column_raises_witness :
  exists k, buildCif w_reader [("ModelledSubgroup", [2%positive])] w_heap_unranked =
            inl (KeyError k).
Proof.
  apply (unranked_column_raises w_reader [("ModelledSubgroup", [2%positive])]
           w_heap_unranked "ModelledSubgroup" [2%positive]
           ["altcode"; "icode"; "chain"; "ordinal"] 2%positive "rsrz").
  - left.
  - discriminate.
  - vm_compute. reflexivity.
  - discriminate.
  - discriminate.
  - left.
  - apply elem_of_dom. vm_compute. eexists. reflexivity.
  - vm_compute. reflexivity.
Defined.


Definition w_bc : err + (option category * heap) :=
  build_category w_reader "ModelledSubgroup" [2%positive] w_heap.

Definition w_cat : category :=
  match w_bc with inr (Some c, _) => c | _ => Category "" [] [] end.


(** C9: the columns of a built category are the union of the keys of its
    rows (after the ordinal and trimming updates), each once, every one
    with a rank, and a column of smaller rank comes first. *)
Theorem columns_sorted_by_rank (r : reader) (catName : string) (rowList : list loc)
    (h : heap) (cat : category) (h' : heap)
    (Hb : build_category r catName rowList h = inr (Some cat, h')) :
  NoDup (cat_attrs cat) /\
  (forall c, c ∈ cat_attrs cat <-> exists l, l ∈ rowList /\ c ∈ dom (get h' l)) /\
  Forall (fun c => is_Some (atOrdD r !! c)) (cat_attrs cat) /\
  (forall (i j : nat) c1 c2 z1 z2,
     cat_attrs cat !! i = Some c1 -> cat_attrs cat !! j = Some c2 ->
     atOrdD r !! c1 = Some z1 -> atOrdD r !! c2 = Some z2 -> z1 < z2 -> (i < j)%nat).
Proof.
  destruct (build_category_columns _ _ _ _ _ _ Hb) as (sD & Hatt & Hf & Hnd & Hmem).
  assert (Hfs : Forall (fun p => atOrdD r !! p.1 = Some p.2) (sort_by_rank sD))
    by (by rewrite sort_by_rank_perm).
  split; [done|]. split; [done|]. split.
  - rewrite Hatt, Forall_fmap. eapply Forall_impl; [exact Hfs|].
    intros p Hp. simpl. by rewrite Hp.
  - intros i j c1 c2 z1 z2 Hi Hj H1 H2 Hlt.
    rewrite Hatt, list_lookup_fmap in Hi, Hj.
    destruct (sort_by_rank sD !! i) as [p|] eqn:Ep; [|done].
    destruct (sort_by_rank sD !! j) as [q|] eqn:Eq; [|done].
    injection Hi as <-. injection Hj as <-.
    rewrite Forall_lookup in Hfs.
    pose proof (Hfs i p Ep) as Hp. pose proof (Hfs j q Eq) as Hq. simpl in *.
    rewrite H1 in Hp. rewrite H2 in Hq. injection Hp as Hp. injection Hq as Hq.
    destruct (decide (i < j)%nat) as [?|Hge]; [done|].
    destruct (decide (i = j)) as [->|Hne].
    + rewrite Ep in Eq. injection Eq as ->. lia.
    + pose proof (StronglySorted_lookup_lt _ j i q p (sort_by_rank_sorted sD)
                    ltac:(lia) Eq Ep) as Hle.
      unfold rank_le in Hle. lia.
Qed.

Lemma columns_sorted_by_rank_witness :
  w_bc = inr (Some w_cat, res_heap w_bc) /\
  NoDup (cat_attrs w_cat) /\
  (forall c, c ∈ cat_attrs w_cat <->
     exists l, l ∈ [2%positive] /\ c ∈ dom (get (res_heap w_bc) l)) /\
  Forall (fun c => is_Some (atOrdD w_reader !! c)) (cat_attrs w_cat) /\
  (forall (i j : nat) c1 c2 z1 z2,
     cat_attrs w_cat !! i = Some c1 -> cat_attrs w_cat !! j = Some c2 ->
     atOrdD w_reader !! c1 = Some z1 -> atOrdD w_reader !! c2 = Some z2 ->
     z1 < z2 -> (i < j)%nat).
Proof.
  assert (Hb : w_bc = inr (Some w_cat, res_heap w_bc)) by (vm_compute; reflexivity).
  split; [exact Hb|].
  exact (columns_sorted_by_rank w_reader "ModelledSubgroup" [2%positive] w_heap
           w_cat (res_heap w_bc) Hb).
Defined.

(** ** The skip test, [read]'s result and the input tree *)

(** Every registered attribute list of [__attribD] is non-empty, so the
    test [len(self.__attribD[catName]) < 1] never holds; an unregistered
    category is not skipped but raises [KeyError]. *)
Lemma attribD_nonempty (r : reader) (catName : string) (al : list string) :
  attribD r !! catName = Some al -> al <> [].
Proof.
  unfold attribD. revert catName al.
  apply (map_fold_weak_ind
    (fun (acc : gmap string (list string)) _ =>
       forall catName al, acc !! catName = Some al -> al <> [])).
  - intros catName al. by rewrite lookup_empty.
  - intros ca x m acc _ IH catName al.
    destruct (decide (catName = ca.1)) as [->|Hne].
    + rewrite lookup_insert_eq. intros [= <-]. by destruct (default [] (acc !! ca.1)).
    + rewrite lookup_insert_ne by done. apply IH.
Qed.

(** The report's provenance element: [<programs><program name="MolProbity"
    properties="ramachandran, clashscore"/></programs>]; the schema map
    registers [program] but not the grouping element [programs]. *)
Definition w_root_programs : element :=
  Element "wwPDB-validation-information" 1
    [Element "programs" 2 [Element "program" 3 []]].

Definition w_heap_programs : heap :=
  <[3%positive := <["name" := VStr "MolProbity"]>
                  (<["properties" := VStr "ramachandran, clashscore"]> ∅)]>
  (<[2%positive := ∅]> (<[1%positive := ∅]> ∅)).

(** C2 (code defect): the [programs] table has a row, so the skip test
    reaches [self.__attribD['programs']], which raises [KeyError] before
    the literal ['programs'] exclusion is tested; in general a category
    with no registered attribute list raises instead of being skipped. *)
Theorem skip_unregistered_raises :
  attribD w_reader !! "programs" = None /\
  xs_rd (extract w_root_programs w_heap_programs) =
    [("programs", [2%positive]); ("program", [4%positive])] /\
  res_value (read w_reader w_root_programs w_heap_programs) = inl (KeyError "programs").
Proof. vm_compute. repeat split; reflexivity. Qed.

(** C1 (code defect): a report without a [program] category is fully
    built and renamed, but [__buildCif] returns its container only inside
    the [program]/[properties] branch, so [read] returns [None]. *)
Theorem read_without_program_returns_none :
  res_value w_built =
    inr (Container "vrpt"
      [("ModelledSubgroup",
        Category "ModelledSubgroup" ["ordinal"; "chain"; "icode"; "altcode"]
          [[Some (VInt 1); Some (VStr "A"); Some (VStr ""); Some (VStr "")]])]) /\
  getObj "program" (rename_all w_reader (cont_of w_built)) = None /\
  res_value (read w_reader w_root w_heap) = inr None.
Proof. vm_compute. repeat split; reflexivity. Qed.

(** C3 (code defect): the row of a top-level element is the element's own
    [attrib] dictionary, so the ordinal injection and the [icode]/[altcode]
    trimming of [__buildCif] rewrite the parsed tree: after [read], the
    [ModelledSubgroup] element's attributes carry [ordinal=1] and trimmed
    codes (child rows, by contrast, are copies). *)
Theorem read_mutates_tree_attributes :
  get w_heap 2 !! "ordinal" = None /\
  get w_heap 2 !! "icode" = Some (VStr " ") /\
  get (res_heap (read w_reader w_root w_heap)) 2 !! "ordinal" = Some (VInt 1) /\
  get (res_heap (read w_reader w_root w_heap)) 2 !! "icode" = Some (VStr "") /\
  get (res_heap (read w_reader w_root w_heap)) 2 !! "altcode" = Some (VStr "").
Proof. vm_compute. repeat split; reflexivity. Qed.

(** ** Further properties of the reader *)

Section Strings.

Lemma substring_app_length (q s : string) (m : nat) :
  String.substring (String.length q) m (String.append q s) = String.substring 0 m s.
Proof. induction q as [|c q IH]; simpl; [done|]. exact IH. Qed.

Lemma substring_whole (s : string) : String.substring 0 (String.length s) s = s.
Proof. induction s as [|c s IH]; simpl; [done|]. by rewrite IH. Qed.

Lemma substring_split (s : string) (n : nat) :
  (n <= String.length s)%nat ->
  s = String.append (String.substring 0 n s) (String.substring n (String.length s - n) s).
Proof.
  revert n. induction s as [|c s IH]; intros n Hn.
  - simpl in Hn. assert (n = 0%nat) as -> by lia. done.
  - destruct n as [|n].
    + simpl. by rewrite substring_whole.
    + simpl in *. change (String c s = String c (String.append (String.substring 0 n s) (String.substring n (String.length s - n) s))). f_equal. apply IH. lia.
Qed.

Lemma string_length_app (q s : string) :
  String.length (String.append q s) = (String.length q + String.length s)%nat.
Proof. induction q as [|c q IH]; simpl; [done|]. by rewrite IH. Qed.

Lemma rstrip_idem (s : string) : rstrip (rstrip s) = rstrip s.
Proof.
  induction s as [|c s IH]; simpl; [done|].
  destruct (String.eqb (rstrip s) "" && is_space c) eqn:E; simpl; [done|].
  by rewrite IH, E.
Qed.

Lemma lstrip_idem (s : string) : lstrip (lstrip s) = lstrip s.
Proof.
  induction s as [|c s IH]; simpl; [done|].
  destruct (is_space c) eqn:E; [done|]. simpl. by rewrite E.
Qed.

Lemma lstrip_length (s : string) : (String.length (lstrip s) <= String.length s)%nat.
Proof.
  induction s as [|c s IH]; simpl; [done|]. destruct (is_space c); simpl; lia.
Qed.

Lemma lstrip_rstrip (t : string) : lstrip t = t -> lstrip (rstrip t) = rstrip t.
Proof.
  destruct t as [|c t]; simpl; [done|].
  destruct (is_space c) eqn:E.
  - intros Ht. exfalso. apply (f_equal String.length) in Ht. simpl in Ht.
    pose proof (lstrip_length t). lia.
  - intros _. rewrite ?andb_false_r. simpl. by rewrite ?E.
Qed.

End Strings.

(** X1: [__attribD] (built in [__init__]) lists for a category exactly the
    attributes registered for it in the schema map, and has an entry only
    for categories with at least one registered attribute. *)
Theorem attribD_registered (r : reader) :
  (forall catName atName,
     (exists al, attribD r !! catName = Some al /\ atName ∈ al) <->
     is_Some (sm_attributes r !! (catName, atName))) /\
  (forall catName,
     attribD r !! catName = None <->
     forall atName, sm_attributes r !! (catName, atName) = None).
Proof.
  assert (Hmem : forall catName atName,
     (exists al, attribD r !! catName = Some al /\ atName ∈ al) <->
     is_Some (sm_attributes r !! (catName, atName))).
  { unfold attribD.
    apply (map_fold_weak_ind
      (fun (acc : gmap string (list string)) (m : gmap (string * string) string) =>
         forall catName atName,
           (exists al, acc !! catName = Some al /\ atName ∈ al) <->
           is_Some (m !! (catName, atName)))).
    - intros catName atName. rewrite !lookup_empty. split.
      + intros (al & ? & _). done.
      + intros [? ?]. done.
    - intros [c a] x m acc Hm IH catName atName. simpl.
      destruct (decide (catName = c)) as [->|Hne].
      + rewrite lookup_insert_eq.
        destruct (decide (atName = a)) as [->|Hna].
        * rewrite lookup_insert_eq. split; [by eexists|].
          intros _. eexists. split; [done|]. apply elem_of_app. right. by left.
        * rewrite lookup_insert_ne by congruence. rewrite <- IH. split.
          -- intros (al & [= <-] & Hal). apply elem_of_app in Hal as [Hal|Hal].
             ++ destruct (acc !! c) as [al'|]; [|by apply not_elem_of_nil in Hal].
                by exists al'.
             ++ by apply list_elem_of_singleton in Hal.
          -- intros (al & Hal & Ha). eexists. split; [done|].
             rewrite Hal. simpl. apply elem_of_app. by left.
      + rewrite lookup_insert_ne by done. rewrite lookup_insert_ne by congruence.
        apply IH. }
  split; [exact Hmem|]. intros catName. split.
  - intros Hn atName. destruct (sm_attributes r !! (catName, atName)) eqn:E; [|done].
    destruct (proj2 (Hmem catName atName) (ltac:(by eexists))) as (al & Hal & _).
    congruence.
  - intros Hall. destruct (attribD r !! catName) as [al|] eqn:E; [|done].
    destruct al as [|a al]; [by destruct (attribD_nonempty r catName [] E)|].
    destruct (proj1 (Hmem catName a) (ltac:(exists (a :: al); split; [done|left]))) as [v Hv].
    by rewrite Hall in Hv.
Qed.

(** X2: [__parse] opens the file with gzip exactly when its path ends in
    the literal suffix [.gz] (case-sensitive), and as a plain file
    otherwise. *)
Theorem parse_opener_gz (filePath : string) :
  parse_opener filePath = GzipOpen <-> exists q, filePath = String.append q ".gz".
Proof.
  unfold parse_opener, py_last3. split.
  - destruct (String.eqb _ ".gz") eqn:E; [|done]. intros _.
    apply String.eqb_eq in E.
    destruct (String.length filePath <? 3)%nat eqn:Hl.
    + subst filePath. done.
    + apply Nat.ltb_ge in Hl.
      exists (String.substring 0 (String.length filePath - 3) filePath).
      rewrite (substring_split filePath (String.length filePath - 3)) at 1 by lia.
      f_equal. by replace (String.length filePath - (String.length filePath - 3))%nat
        with 3%nat by lia.
  - intros [q ->]. rewrite string_length_app. simpl.
    replace (String.length q + 3 <? 3)%nat with false by (symmetry; apply Nat.ltb_ge; lia).
    replace (String.length q + 3 - 3)%nat with (String.length q) by lia.
    by rewrite substring_app_length.
Qed.

(** X3: the trimming applied to [icode] and [altcode] is idempotent, and
    its result does not start with whitespace. *)
Theorem strip_idempotent (s : string) :
  strip (strip s) = strip s /\
  (strip s = "" \/ exists c t, strip s = String c t /\ is_space c = false).
Proof.
  split.
  - unfold strip. rewrite (lstrip_rstrip (lstrip s)) by apply lstrip_idem.
    apply rstrip_idem.
  - unfold strip. pose proof (lstrip_rstrip (lstrip s) (lstrip_idem s)) as H.
    destruct (rstrip (lstrip s)) as [|c t] eqn:E; [by left|right].
    exists c, t. split; [done|]. simpl in H.
    destruct (is_space c) eqn:Ec; [|done].
    exfalso. apply (f_equal String.length) in H. simpl in H.
    pose proof (lstrip_length t). lia.
Qed.

Section BuiltCells.

Lemma norm_row_other_key b ii (d : attrs) a :
  a ∉ ["ordinal"; "icode"; "altcode"] -> norm_row b ii d !! a = d !! a.
Proof.
  intros Ha.
  assert (a <> "ordinal" /\ a <> "icode" /\ a <> "altcode") as (H1 & H2 & H3)
    by (split; [|split]; intros ->; apply Ha; set_solver).
  unfold norm_row. destruct b;
  repeat match goal with
  | |- context [match ?x with Some _ => _ | None => _ end] => destruct x
  end; rewrite ?lookup_insert_ne by congruence; done.
Qed.

Lemma norm_rows_other_key b ii (rows : list loc) h atS l a :
  a ∉ ["ordinal"; "icode"; "altcode"] ->
  get (norm_rows b ii rows h atS).1 l !! a = get h l !! a.
Proof.
  revert ii h atS. induction rows as [|l' rows IH]; intros ii h atS Ha; simpl; [done|].
  rewrite IH by done. unfold get at 1.
  destruct (decide (l = l')) as [->|Hne].
  - rewrite lookup_insert_eq. simpl. by apply norm_row_other_key.
  - by rewrite lookup_insert_ne.
Qed.

(** A trimmed code cell: absent, or a string that [strip] leaves as is. *)
Definition stripped_at (d : attrs) (a : string) : Prop :=
  match d !! a with
  | None => True
  | Some (VStr s) => strip s = s
  | Some (VInt _) => False
  end.

Lemma stripped_insert (d : attrs) a s :
  stripped_at (<[a := VStr (strip s)]> d) a.
Proof.
  unfold stripped_at. rewrite lookup_insert_eq. apply strip_idempotent.
Qed.

Lemma norm_row_stripped b ii (d : attrs) :
  stripped_at (norm_row b ii d) "icode" /\ stripped_at (norm_row b ii d) "altcode".
Proof.
  unfold norm_row.
  set (d1 := if b then <["ordinal" := VInt ii]> d else d).
  destruct (d1 !! "icode") as [v|] eqn:Ei.
  - set (d2 := <["icode" := VStr (strip (py_str v))]> d1).
    destruct (d2 !! "altcode") as [w|] eqn:Ea.
    + split; [|apply stripped_insert].
      unfold stripped_at. rewrite lookup_insert_ne by done.
      apply stripped_insert.
    + split; [apply stripped_insert|]. unfold stripped_at. by rewrite Ea.
  - destruct (d1 !! "altcode") as [w|] eqn:Ea.
    + split; [|apply stripped_insert].
      unfold stripped_at. rewrite lookup_insert_ne by done. by rewrite Ei.
    + unfold stripped_at. by rewrite Ei, Ea.
Qed.

Lemma norm_rows_stripped b ii (rows : list loc) h atS l a :
  a ∈ ["icode"; "altcode"] -> l ∈ rows ->
  stripped_at (get (norm_rows b ii rows h atS).1 l) a.
Proof.
  intros Ha. revert ii h atS. induction rows as [|l' rows IH]; intros ii h atS Hl;
    [by apply not_elem_of_nil in Hl|]. simpl.
  destruct (decide (l ∈ rows)) as [Hin|Hnin]; [by apply IH|].
  apply elem_of_cons in Hl as [->|?]; [|done].
  rewrite norm_rows_other by done. unfold get at 1. rewrite lookup_insert_eq. simpl.
  destruct (norm_row_stripped b ii (get h l')) as [Hi Ha'].
  apply elem_of_cons in Ha as [->|Ha]; [done|].
  apply list_elem_of_singleton in Ha as ->. done.
Qed.

End BuiltCells.

(** X4: a built category has one row per input row, each with one cell
    per column; the cell of a column other than [ordinal], [icode] and
    [altcode] is the source row's value for that column, [None] when the
    row has no such key (never filled in). *)
Theorem built_cells_verbatim (r : reader) (catName : string) (rowList : list loc)
    (h : heap) (cat : category) (h' : heap)
    (Hb : build_category r catName rowList h = inr (Some cat, h')) :
  length (cat_rows cat) = length rowList /\
  Forall (fun row => length row = length (cat_attrs cat)) (cat_rows cat) /\
  (forall (i k : nat) l a, rowList !! i = Some l -> cat_attrs cat !! k = Some a ->
     a ∉ ["ordinal"; "icode"; "altcode"] ->
     (cat_rows cat !! i) ≫= (fun row => row !! k) = Some (get h l !! a)).
Proof.
  destruct (build_category_some _ _ _ _ _ _ Hb) as (al & sD & _ & Hh & _ & ->).
  simpl. split; [by rewrite length_map|]. split.
  - apply Forall_forall. intros row Hrow. apply list_elem_of_In, in_map_iff in Hrow.
    destruct Hrow as (l & <- & _). by rewrite length_map.
  - intros i k l a Hi Hk Ha. rewrite list_lookup_fmap, Hi. simpl.
    rewrite list_lookup_fmap, Hk. simpl. rewrite Hh. f_equal.
    by apply norm_rows_other_key.
Qed.

Lemma built_cells_verbatim_witness :
  w_bc = inr (Some w_cat, res_heap w_bc) /\
  length (cat_rows w_cat) = length [2%positive] /\
  Forall (fun row => length row = length (cat_attrs w_cat)) (cat_rows w_cat) /\
  (forall (i k : nat) l a, [2%positive] !! i = Some l -> cat_attrs w_cat !! k = Some a ->
     a ∉ ["ordinal"; "icode"; "altcode"] ->
     (cat_rows w_cat !! i) ≫= (fun row => row !! k) = Some (get w_heap l !! a)).
Proof.
  assert (Hb : w_bc = inr (Some w_cat, res_heap w_bc)) by (vm_compute; reflexivity).
  split; [exact Hb|].
  exact (built_cells_verbatim w_reader "ModelledSubgroup" [2%positive] w_heap
           w_cat (res_heap w_bc) Hb).
Defined.

(** X5: in a built category every [icode] and [altcode] cell is empty or a
    string with no leading or trailing whitespace ([strip] leaves it
    unchanged), whatever the source value was. *)
Theorem built_codes_trimmed (r : reader) (catName : string) (rowList : list loc)
    (h : heap) (cat : category) (h' : heap)
    (Hb : build_category r catName rowList h = inr (Some cat, h')) :
  forall (i k : nat) row a, a ∈ ["icode"; "altcode"] ->
    cat_attrs cat !! k = Some a -> cat_rows cat !! i = Some row ->
    row !! k = Some None \/ exists s, row !! k = Some (Some (VStr s)) /\ strip s = s.
Proof.
  destruct (build_category_some _ _ _ _ _ _ Hb) as (al & sD & _ & Hh & _ & ->).
  simpl. intros i k row a Ha Hk Hi.
  rewrite list_lookup_fmap in Hi. destruct (rowList !! i) as [l|] eqn:El; [|done].
  injection Hi as <-. rewrite list_lookup_fmap, Hk. simpl.
  assert (Hl : l ∈ rowList) by (eapply list_elem_of_lookup_2; eauto).
  pose proof (norm_rows_stripped (bool_decide ("ordinal" ∈ al)) 1 rowList h ∅ l a Ha Hl)
    as Hs. rewrite <- Hh in Hs. unfold stripped_at in Hs.
  destruct (get h' l !! a) as [[s|z]|]; [right; by exists s|done|by left].
Qed.

Lemma built_codes_trimmed_witness :
  w_bc = inr (Some w_cat, res_heap w_bc) /\
  forall (i k : nat) row a, a ∈ ["icode"; "altcode"] ->
    cat_attrs w_cat !! k = Some a -> cat_rows w_cat !! i = Some row ->
    row !! k = Some None \/ exists s, row !! k = Some (Some (VStr s)) /\ strip s = s.
Proof.
  assert (Hb : w_bc = inr (Some w_cat, res_heap w_bc)) by (vm_compute; reflexivity).
  split; [exact Hb|].
  exact (built_codes_trimmed w_reader "ModelledSubgroup" [2%positive] w_heap
           w_cat (res_heap w_bc) Hb).
Defined.

(** ** Table and category keys *)

(** The distinct elements of a list, in the order of their first
    occurrence. *)
Definition dedup_first (l : list string) : list string :=
  foldl (fun acc k => if bool_decide (k ∈ acc) then acc else acc ++ [k]) [] l.

Section Keys.

Lemma setdefault_append_keys {A} k (v : A) (t : table A) :
  map fst (setdefault_append k v t) =
  if bool_decide (k ∈ map fst t) then map fst t else map fst t ++ [k].
Proof.
  induction t as [|[k' vs] t IH]; simpl; [done|].
  destruct (String.eqb k k') eqn:E; simpl.
  - apply String.eqb_eq in E as ->. rewrite bool_decide_eq_true_2; [done|left].
  - apply String.eqb_neq in E. rewrite IH.
    destruct (bool_decide_reflect (k ∈ map fst t)) as [Hk|Hk];
    destruct (bool_decide_reflect (k ∈ k' :: map fst t)) as [Hk'|Hk']; try done.
    + exfalso. apply Hk'. by right.
    + apply elem_of_cons in Hk' as [?|?]; done.
Qed.

Lemma setdefault_append_nodup {A} k (v : A) (t : table A) :
  NoDup (map fst t) -> NoDup (map fst (setdefault_append k v t)).
Proof.
  intros Hnd. rewrite setdefault_append_keys.
  destruct (bool_decide_reflect (k ∈ map fst t)) as [Hk|Hk]; [done|].
  apply NoDup_app. split; [done|]. split; [|apply NoDup_singleton].
  intros x Hx Hx'. apply list_elem_of_singleton in Hx' as ->. done.
Qed.

Lemma group_keys {A} (acc : table A) (es : list (string * A)) :
  map fst (foldl group_step acc es) =
  foldl (fun acc k => if bool_decide (k ∈ acc) then acc else acc ++ [k])
    (map fst acc) (map fst es).
Proof.
  revert acc. induction es as [|[k v] es IH]; intros acc; simpl; [done|].
  rewrite IH. unfold group_step. simpl. by rewrite setdefault_append_keys.
Qed.

Lemma dedup_first_nodup (acc l : list string) :
  NoDup acc ->
  NoDup (foldl (fun acc k => if bool_decide (k ∈ acc) then acc else acc ++ [k]) acc l).
Proof.
  revert acc. induction l as [|k l IH]; intros acc Hnd; simpl; [done|].
  apply IH. destruct (bool_decide_reflect (k ∈ acc)); [done|].
  apply NoDup_app. split; [done|]. split; [|apply NoDup_singleton].
  intros x Hx Hx'. apply list_elem_of_singleton in Hx' as ->. done.
Qed.

Lemma read_table_keys (h : heap) (t : table loc) :
  map fst (read_table h t) = map fst t.
Proof. unfold read_table. rewrite map_map. by apply map_ext. Qed.

Lemma extract_keys_nodup (root : element) (h : heap) :
  NoDup (map fst (xs_rd (extract root h))).
Proof.
  assert (Hap : forall k l s, NoDup (map fst (xs_rd s)) ->
                  NoDup (map fst (xs_rd (xappend k l s))))
    by (intros; by apply setdefault_append_nodup).
  assert (Hg : forall gs s, NoDup (map fst (xs_rd s)) ->
                 NoDup (map fst (xs_rd (extract_grandchildren gs s)))).
  { induction gs as [|g gs IH]; intros s Hs; [done|]. apply IH. by apply Hap. }
  assert (Hc : forall el chs s, NoDup (map fst (xs_rd s)) ->
                 NoDup (map fst (xs_rd (foldl (extract_child el) s chs)))).
  { intros el. induction chs as [|ch chs IH]; intros s Hs; [done|]. simpl. apply IH.
    unfold extract_child, xalloc. simpl. apply Hg. by apply Hap. }
  assert (Ht : forall els s, NoDup (map fst (xs_rd s)) ->
                 NoDup (map fst (xs_rd (foldl extract_top s els)))).
  { induction els as [|el els IH]; intros s Hs; [done|]. simpl. apply IH.
    unfold extract_top. apply Hc. by apply Hap. }
  apply Ht. simpl. constructor.
Qed.



End Keys.

(** X6: [__extract] creates one table per distinct tag, in the order in
    which the tags are first met in document order (top-level element,
    then its children, each followed by its own children). *)
Theorem extract_tables_first_encounter (root : element) (h : heap)
    (Hwf : tree_wf root h) :
  map fst (xs_rd (extract root h)) = dedup_first (map fst (emissions h root)) /\
  NoDup (map fst (xs_rd (extract root h))).
Proof.
  split; [|apply extract_keys_nodup].
  destruct (extract_spec root h Hwf) as [_ Hr]. unfold RT in Hr.
  rewrite <- (read_table_keys (xs_heap (extract root h))), Hr.
  unfold group, dedup_first. by rewrite group_keys.
Qed.

Lemma extract_tables_first_encounter_witness :
  tree_wf scen_root scen_heap /\
  map fst (xs_rd (extract scen_root scen_heap)) =
    dedup_first (map fst (emissions scen_heap scen_root)) /\
  NoDup (map fst (xs_rd (extract scen_root scen_heap))).
Proof.
  assert (Hwf : tree_wf scen_root scen_heap)
    by (repeat constructor; vm_compute; eexists; reflexivity).
  split; [exact Hwf|].
  exact (extract_tables_first_encounter scen_root scen_heap Hwf).
Defined.



(** ** Provenance decoding and the result of [__buildCif] *)

Lemma index_of_lookup (a : string) (l : list string) (i : nat) :
  index_of a l = Some i -> l !! i = Some a.
Proof.
  revert i. induction l as [|x l IH]; intros i; simpl; [discriminate|].
  destruct (String.eqb x a) eqn:E.
  - intros [= <-]. apply String.eqb_eq in E. by subst.
  - destruct (index_of a l) as [j|] eqn:Ej; simpl; [|discriminate].
    intros [= <-]. simpl. by apply IH.
Qed.

Lemma index_of_elem (a : string) (l : list string) :
  a ∈ l -> exists i, index_of a l = Some i.
Proof.
  induction l as [|x l IH]; simpl; intros Hin; [by apply not_elem_of_nil in Hin|].
  destruct (String.eqb x a) eqn:E; [by eexists|].
  apply elem_of_cons in Hin as [->|Hin].
  - by rewrite String.eqb_refl in E.
  - destruct (IH Hin) as [i ->]. by eexists.
Qed.

Lemma objs_set_keys (name : string) (cat : category) objs :
  map fst (objs_set name cat objs) = map fst objs.
Proof.
  unfold objs_set. rewrite map_map. apply map_ext. intros [n c]. simpl.
  by destruct (String.eqb n name).
Qed.

Lemma objs_lookup_set_eq (name : string) (cat : category) objs x :
  objs_lookup name objs = Some x -> objs_lookup name (objs_set name cat objs) = Some cat.
Proof.
  induction objs as [|[n c] objs IH]; simpl; [discriminate|].
  destruct (String.eqb n name) eqn:E; simpl; rewrite E; [done|]. exact IH.
Qed.

Lemma objs_lookup_set_ne (name name' : string) (cat : category) objs :
  name' <> name -> objs_lookup name' (objs_set name cat objs) = objs_lookup name' objs.
Proof.
  intros Hne. induction objs as [|[n c] objs IH]; simpl; [done|].
  destruct (String.eqb n name) eqn:E; simpl.
  - apply String.eqb_eq in E. subst n.
    destruct (String.eqb name name') eqn:E'; [|done].
    apply String.eqb_eq in E'. congruence.
  - by rewrite IH.
Qed.

Lemma decode_rows_ok (r : reader) (i : nat) rows rows' :
  decode_rows r i rows = inr rows' <->
  Forall2 (fun row row' => exists pV, row !! i = Some (Some (VStr pV)) /\
             row' = <[i := Some (VStr (decode_properties r pV))]> row) rows rows'.
Proof.
  revert rows'. induction rows as [|row rest IH]; intros rows'; simpl.
  - split; [intros [= <-]; constructor|].
    intros H. inversion H. reflexivity.
  - split.
    + destruct (row !! i) as [[[pV|z]|]|] eqn:E; try discriminate.
      destruct (decode_rows r i rest) as [e|rest'] eqn:Er; [discriminate|].
      intros [= <-]. constructor; [eauto|]. by apply IH.
    + intros H. inversion H as [|? row' ? rest' Hrow Hr]; subst.
      destruct Hrow as [pV [E ->]]. rewrite E.
      apply IH in Hr. by rewrite Hr.
Qed.

Lemma decode_rows_fail (r : reader) (i : nat) rows e :
  decode_rows r i rows = inl e ->
  Exists (fun row => forall pV, row !! i <> Some (Some (VStr pV))) rows.
Proof.
  induction rows as [|row rest IH]; simpl; [discriminate|].
  destruct (row !! i) as [[[pV|z]|]|] eqn:E;
    try (intros _; left; intros pV; rewrite E; discriminate).
  destruct (decode_rows r i rest) as [e'|rest'] eqn:Er; [|discriminate].
  intros [= ->]. right. by apply IH.
Qed.

Lemma split_comma_cons (s : string) : exists x xs, split_comma s = x :: xs.
Proof.
  induction s as [|c s IH]; simpl; [by eexists _, _|].
  destruct IH as [x [xs ->]]. destruct (Ascii.eqb c ","%char); by eexists _, _.
Qed.

Lemma split_comma_single_cons (c : ascii) (s : string) :
  split_comma (String c s) = [String c s] <->
  Ascii.eqb c ","%char = false /\ split_comma s = [s].
Proof.
  simpl. destruct (split_comma_cons s) as [x [xs E]]. rewrite E.
  destruct (Ascii.eqb c ","%char) eqn:Ec.
  - split; [discriminate|]. intros [? _]. discriminate.
  - split; [intros [= -> ->]; done|]. intros [_ [= -> ->]]. done.
Qed.

Lemma split_comma_app (x t : string) :
  split_comma x = [x] -> split_comma (String.append x (String ","%char t)) = x :: split_comma t.
Proof.
  induction x as [|c x IH]; intros Hx; simpl.
  - destruct (split_comma_cons t) as [y [ys E]]. by rewrite E.
  - apply split_comma_single_cons in Hx as [Hc Hx].
    rewrite (IH Hx). simpl. by rewrite Hc.
Qed.

Lemma rstrip_comma_free (s : string) : split_comma s = [s] -> split_comma (rstrip s) = [rstrip s].
Proof.
  induction s as [|c s IH]; intros Hs; simpl; [done|].
  apply split_comma_single_cons in Hs as [Hc Hs].
  destruct (String.eqb (rstrip s) "" && is_space c); [done|].
  apply split_comma_single_cons. split; [done|]. by apply IH.
Qed.

Lemma lstrip_comma_free (s : string) : split_comma s = [s] -> split_comma (lstrip s) = [lstrip s].
Proof.
  induction s as [|c s IH]; intros Hs; simpl; [done|].
  destruct (is_space c); [|done].
  apply IH. by apply split_comma_single_cons in Hs as [_ Hs].
Qed.

Lemma split_comma_pieces (s : string) : Forall (fun x => split_comma x = [x]) (split_comma s).
Proof.
  induction s as [|c s IH]; simpl; [by repeat constructor|].
  destruct (split_comma_cons s) as [x [xs E]]. rewrite E in IH |- *.
  apply Forall_cons in IH as [Hx Hxs].
  destruct (Ascii.eqb c ","%char) eqn:Ec; repeat constructor; try done.
  by apply split_comma_single_cons.
Qed.

(** X8: [decode_rows] (the loop over the rows of [program]) succeeds
    exactly when every row holds a string in the [properties] column; each
    row then changes in that column only, where the string is replaced by
    its decoded form, and the number of rows is kept.  Otherwise it raises
    on a row whose cell is missing, [None] or an integer. *)
Theorem decode_rows_characterisation (r : reader) (i : nat) (rows : list (list (option val))) :
  (forall rows', decode_rows r i rows = inr rows' <->
     Forall2 (fun row row' => exists pV, row !! i = Some (Some (VStr pV)) /\
                row' = <[i := Some (VStr (decode_properties r pV))]> row) rows rows') /\
  ((exists e, decode_rows r i rows = inl e) <->
     Exists (fun row => forall pV, row !! i <> Some (Some (VStr pV))) rows).
Proof.
  split; [intros; apply decode_rows_ok|]. split.
  - intros [e He]. by eapply decode_rows_fail.
  - intros Hex. destruct (decode_rows r i rows) as [e|rows'] eqn:E; [by eexists|].
    apply decode_rows_ok in E. exfalso.
    induction E as [|row row' rows rows' [pV [Hp _]] _ IH].
    + by apply Exists_nil in Hex.
    + apply Exists_cons in Hex as [Hn|Hex]; [by apply (Hn pV)|by apply IH].
Qed.

Lemma join_split (s : string) : join_comma (split_comma s) = s.
Proof.
  induction s as [|c s IH]; simpl; [done|].
  destruct (split_comma_cons s) as [x [xs E]]. rewrite E in IH |- *.
  destruct (Ascii.eqb c ","%char) eqn:Ec.
  - apply Ascii.eqb_eq in Ec. subst c.
    change (String ","%char (join_comma (x :: xs)) = String ","%char s). by rewrite IH.
  - destruct xs as [|y ys]; [simpl in IH |- *; by rewrite IH|].
    change (String c (join_comma (x :: y :: ys)) = String c s). by rewrite IH.
Qed.

Lemma split_join (l : list string) :
  l <> [] -> Forall (fun x => split_comma x = [x]) l -> split_comma (join_comma l) = l.
Proof.
  intros Hne Hall. induction l as [|x [|y ys] IH]; [done| |].
  - by apply Forall_cons in Hall as [Hx _].
  - apply Forall_cons in Hall as [Hx Hrest].
    change (split_comma (String.append x (String ","%char (join_comma (y :: ys)))) = x :: y :: ys).
    rewrite (split_comma_app x _ Hx). f_equal. by apply IH.
Qed.

(** X9: [",".join(s.split(","))] gives back [s]; and splitting a join of
    a non-empty list of comma-free pieces gives back the pieces. *)
Theorem split_join_roundtrip (s : string) (l : list string) :
  join_comma (split_comma s) = s /\
  (l <> [] -> Forall (fun x => split_comma x = [x]) l -> split_comma (join_comma l) = l).
Proof.
  split; [apply join_split|apply split_join].
Qed.

(** X10: when no value of [__atMap] contains a comma, the decoded
    [properties] string splits back into the decoded tokens, one for each
    comma-separated item of the original value: decoding keeps the number
    of items. *)
Theorem decode_properties_items (r : reader) (pV : string)
    (Hr : map_Forall (fun _ v => split_comma v = [v]) (atMap r)) :
  split_comma (decode_properties r pV) = map (decode_token r) (map strip (split_comma pV)) /\
  length (split_comma (decode_properties r pV)) = length (split_comma pV).
Proof.
  assert (Hs : split_comma (decode_properties r pV) =
               map (decode_token r) (map strip (split_comma pV))).
  { unfold decode_properties. apply split_join.
    - destruct (split_comma_cons pV) as [x [xs ->]]. discriminate.
    - pose proof (split_comma_pieces pV) as Hp.
      induction Hp as [|x xs Hx _ IH]; simpl; constructor; [|exact IH].
      unfold decode_token. destruct (atMap r !! strip x) as [v|] eqn:E.
      + exact (Hr _ _ E).
      + unfold strip. by apply rstrip_comma_free, lstrip_comma_free. }
  split; [exact Hs|]. by rewrite Hs, !length_map.
Qed.

Lemma decode_properties_items_witness :
  map_Forall (fun _ v => split_comma v = [v]) (atMap w_reader) /\
  split_comma (decode_properties w_reader "ramachandran, rsrz") =
    map (decode_token w_reader) (map strip (split_comma "ramachandran, rsrz")) /\
  length (split_comma (decode_properties w_reader "ramachandran, rsrz")) =
    length (split_comma "ramachandran, rsrz").
Proof.
  assert (Hr : map_Forall (fun _ v => split_comma v = [v]) (atMap w_reader)).
  { simpl. apply map_Forall_insert_2; [reflexivity|apply map_Forall_empty]. }
  split; [exact Hr|].
  exact (decode_properties_items w_reader "ramachandran, rsrz" Hr).
Defined.

Lemma build_all_name r (rD : table loc) c h c' h' :
  build_all r rD c h = inr (c', h') -> cont_name c' = cont_name c.
Proof.
  revert c h. induction rD as [|[n rows] rD IH]; intros c h Hb; simpl in *.
  - by injection Hb as -> _.
  - unfold mbind in Hb.
    destruct (build_category r n rows h) as [e|[[cat|] h1]]; [done| |].
    + by rewrite (IH _ _ Hb).
    + exact (IH _ _ Hb).
Qed.

(** X11: when [__buildCif] returns a list, the list holds exactly one
    container, named [vrpt], built from the same categories as the
    renamed container and leaving the heap as the build left it; only the
    [program] category differs, its [properties] column decoded row by row. *)
Theorem buildCif_some_result (r : reader) (rD : table loc) (h : heap)
    (cs : list container) (h' : heap)
    (H : buildCif r rD h = inr (Some cs, h')) :
  exists c0, build_all r rD (Container "vrpt" []) h = inr (c0, h') /\
  exists catObj i rows' c,
    getObj "program" (rename_all r c0) = Some catObj /\
    cat_attrs catObj !! i = Some "properties" /\
    Forall2 (fun row row' => exists pV, row !! i = Some (Some (VStr pV)) /\
               row' = <[i := Some (VStr (decode_properties r pV))]> row)
      (cat_rows catObj) rows' /\
    cs = [c] /\ cont_name c = "vrpt" /\
    map fst (cont_objs c) = map fst (cont_objs (rename_all r c0)) /\
    getObj "program" c = Some (Category (cat_name catObj) (cat_attrs catObj) rows') /\
    (forall n, n <> "program" -> getObj n c = getObj n (rename_all r c0)).
Proof.
  unfold buildCif, mbind in H.
  destruct (build_all r rD (Container "vrpt" []) h) as [e|[c0 h1]] eqn:Eb; [done|].
  exists c0.
  destruct (getObj "program" (rename_all r c0)) as [catObj|] eqn:Eg; [|done].
  destruct (bool_decide (cat_rows catObj <> []) && bool_decide ("properties" ∈ cat_attrs catObj));
    [|done].
  destruct (index_of "properties" (cat_attrs catObj)) as [i|] eqn:Ei; [|done].
  destruct (decode_rows r i (cat_rows catObj)) as [e|rows'] eqn:Ed; [done|].
  unfold mret in H. injection H as <- <-. split; [done|].
  eexists catObj, i, rows', _. split; [done|]. split; [by apply index_of_lookup|].
  split; [by apply decode_rows_ok|]. split; [done|]. split.
  { simpl. rewrite (build_all_name _ _ _ _ _ _ Eb). done. }
  split; [apply objs_set_keys|]. split.
  - exact (objs_lookup_set_eq _ _ _ _ Eg).
  - intros n Hn. exact (objs_lookup_set_ne _ _ _ _ Hn).
Qed.

(** X12: [__buildCif] returns [None] exactly when the build succeeds and
    the renamed container has no [program] category, or that category has
    no rows, or it has no [properties] attribute. *)
Theorem buildCif_none_iff (r : reader) (rD : table loc) (h h' : heap) :
  buildCif r rD h = inr (None, h') <->
  exists c0, build_all r rD (Container "vrpt" []) h = inr (c0, h') /\
    forall catObj, getObj "program" (rename_all r c0) = Some catObj ->
      cat_rows catObj = [] \/ "properties" ∉ cat_attrs catObj.
Proof.
  unfold buildCif, mbind. split.
  - destruct (build_all r rD (Container "vrpt" []) h) as [e|[c0 h1]]; [done|].
    destruct (getObj "program" (rename_all r c0)) as [catObj|] eqn:Eg.
    + destruct (bool_decide (cat_rows catObj <> []) && bool_decide ("properties" ∈ cat_attrs catObj))
        eqn:Ec.
      * destruct (index_of "properties" (cat_attrs catObj)); [|done].
        destruct (decode_rows r n (cat_rows catObj)); done.
      * unfold mret. intros [= ->]. exists c0. split; [done|].
        intros cat Hc. rewrite Eg in Hc. injection Hc as <-. apply andb_false_iff in Ec as [E|E].
        -- left. apply bool_decide_eq_false in E. destruct (cat_rows catObj); [done|].
           by contradict E.
        -- right. by apply bool_decide_eq_false in E.
    + unfold mret. intros [= ->]. exists c0. split; [done|].
      intros cat Hc. by rewrite Eg in Hc.
  - intros [c0 [-> Hc]].
    destruct (getObj "program" (rename_all r c0)) as [catObj|] eqn:Eg; [|done].
    destruct (Hc catObj eq_refl) as [E|E].
    + rewrite E. done.
    + rewrite (bool_decide_eq_false_2 _ E), andb_false_r. done.
Qed.

(** X13: [__buildCif] raises only while building the categories or, in the
    provenance step, on a row of [program] whose [properties] cell is not
    a string. *)
Theorem buildCif_error_source (r : reader) (rD : table loc) (h : heap) (e : err)
    (H : buildCif r rD h = inl e) :
  build_all r rD (Container "vrpt" []) h = inl e \/
  exists c0 h1 catObj i,
    build_all r rD (Container "vrpt" []) h = inr (c0, h1) /\
    getObj "program" (rename_all r c0) = Some catObj /\
    cat_attrs catObj !! i = Some "properties" /\
    Exists (fun row => forall pV, row !! i <> Some (Some (VStr pV))) (cat_rows catObj).
Proof.
  unfold buildCif, mbind in H.
  destruct (build_all r rD (Container "vrpt" []) h) as [e'|[c0 h1]] eqn:Eb.
  { left. by injection H as ->. }
  right. exists c0, h1.
  destruct (getObj "program" (rename_all r c0)) as [catObj|] eqn:Eg; [|done].
  exists catObj.
  destruct (bool_decide (cat_rows catObj <> []) && bool_decide ("properties" ∈ cat_attrs catObj))
    eqn:Ec; [|done].
  apply andb_true_iff in Ec as [_ Ep]. apply bool_decide_eq_true in Ep.
  destruct (index_of_elem _ _ Ep) as [i Ei]. rewrite Ei in H.
  exists i. split; [done|]. split; [done|]. split; [by apply index_of_lookup|].
  destruct (decode_rows r i (cat_rows catObj)) as [e'|rows'] eqn:Ed; [|done].
  by eapply decode_rows_fail.
Qed.

Definition w_heap_props_int : heap :=
  <[3%positive := <["name" := VStr "MolProbity"]> (<["properties" := VInt 7]> ∅)]> ∅.

Lemma buildCif_some_result_witness :
  exists cs h', buildCif w_reader [("program", [3%positive])] w_heap_programs = inr (Some cs, h') /\
  exists c0, build_all w_reader [("program", [3%positive])] (Container "vrpt" []) w_heap_programs
             = inr (c0, h') /\
  exists catObj i rows' c,
    getObj "program" (rename_all w_reader c0) = Some catObj /\
    cat_attrs catObj !! i = Some "properties" /\
    Forall2 (fun row row' => exists pV, row !! i = Some (Some (VStr pV)) /\
               row' = <[i := Some (VStr (decode_properties w_reader pV))]> row)
      (cat_rows catObj) rows' /\
    cs = [c] /\ cont_name c = "vrpt" /\
    map fst (cont_objs c) = map fst (cont_objs (rename_all w_reader c0)) /\
    getObj "program" c = Some (Category (cat_name catObj) (cat_attrs catObj) rows') /\
    (forall n, n <> "program" -> getObj n c = getObj n (rename_all w_reader c0)).
Proof.
  destruct (buildCif w_reader [("program", [3%positive])] w_heap_programs)
    as [e|[[cs|] h']] eqn:E; [vm_compute in E; discriminate| |vm_compute in E; discriminate].
  exists cs, h'. split; [reflexivity|].
  exact (buildCif_some_result _ _ _ _ _ E).
Defined.

Lemma buildCif_error_source_witness :
  exists e, buildCif w_reader [("program", [3%positive])] w_heap_props_int = inl e /\
  (build_all w_reader [("program", [3%positive])] (Container "vrpt" []) w_heap_props_int = inl e \/
   exists c0 h1 catObj i,
     build_all w_reader [("program", [3%positive])] (Container "vrpt" []) w_heap_props_int
       = inr (c0, h1) /\
     getObj "program" (rename_all w_reader c0) = Some catObj /\
     cat_attrs catObj !! i = Some "properties" /\
     Exists (fun row => forall pV, row !! i <> Some (Some (VStr pV))) (cat_rows catObj)).
Proof.
  destruct (buildCif w_reader [("program", [3%positive])] w_heap_props_int)
    as [e|p] eqn:E; [|vm_compute in E; discriminate].
  exists e. split; [reflexivity|].
  exact (buildCif_error_source _ _ _ _ E).
Defined.

(** ** Which tables become categories *)

Lemma objs_append_elem (cat : category) objs (n : string) :
  n ∈ map fst (objs_append cat objs) <-> n ∈ map fst objs \/ n = cat_name cat.
Proof.
  induction objs as [|[m c] objs IH]; simpl.
  - rewrite list_elem_of_singleton. split; [by right|]. intros [H|H]; [by apply not_elem_of_nil in H|done].
  - destruct (String.eqb m (cat_name cat)) eqn:E; simpl.
    + apply String.eqb_eq in E. subst m. rewrite !elem_of_cons. naive_solver.
    + rewrite !elem_of_cons, IH. naive_solver.
Qed.

Lemma build_category_none r catName (rowList : list loc) h h' :
  build_category r catName rowList h = inr (None, h') ->
  rowList = [] \/ catName = "programs".
Proof.
  unfold build_category, skip_test.
  destruct rowList as [|l0 rows]; [by left|]. simpl.
  destruct (attribD r !! catName) as [al|] eqn:Eal; [|done].
  pose proof (attribD_nonempty _ _ _ Eal) as Hne.
  destruct al as [|a al]; [done|]. simpl.
  destruct (String.eqb catName "programs") eqn:Ep.
  - intros _. right. by apply String.eqb_eq.
  - simpl. destruct (norm_rows _ _ _ _ _) as [h1 atS].
    destruct (rank_all _ _); done.
Qed.

Lemma build_category_emitted r catName (rowList : list loc) h cat h' :
  build_category r catName rowList h = inr (Some cat, h') ->
  rowList <> [] /\ catName <> "programs".
Proof.
  intros Hb. destruct (build_category_some _ _ _ _ _ _ Hb) as (al & sD & Hs & _).
  apply skip_test_some in Hs as (_ & Hr & _ & Hp). done.
Qed.

Lemma build_all_elem r (rD : table loc) c h c' h' (n : string) :
  build_all r rD c h = inr (c', h') ->
  n ∈ map fst (cont_objs c') <->
  n ∈ map fst (cont_objs c) \/
  exists rows, (n, rows) ∈ rD /\ rows <> [] /\ n <> "programs".
Proof.
  revert c h. induction rD as [|[m rows] rD IH]; intros c h Hb; simpl in *.
  - injection Hb as <- _. split; [by left|]. intros [H|(rows & H & _)]; [done|].
    by apply not_elem_of_nil in H.
  - unfold mbind in Hb.
    destruct (build_category r m rows h) as [e|[[cat|] h1]] eqn:Eb; [done| |].
    + rewrite (IH _ _ Hb). simpl. rewrite objs_append_elem.
      rewrite (build_category_name _ _ _ _ _ _ Eb).
      destruct (build_category_emitted _ _ _ _ _ _ Eb) as [Hr Hp].
      setoid_rewrite elem_of_cons. split.
      * intros [[H| ->]|(rows' & H & ?)]; [by left|right; exists rows; eauto|].
        right. exists rows'. eauto.
      * intros [H|(rows' & [[= -> ->]|H] & Hr' & Hp')]; [by left; left|by left; right|].
        right. eauto.
    + rewrite (IH _ _ Hb). pose proof (build_category_none _ _ _ _ _ Eb) as Hn.
      setoid_rewrite elem_of_cons. split.
      * intros [H|(rows' & H & ?)]; [by left|]. right. eauto.
      * intros [H|(rows' & [[= -> ->]|H] & Hr' & Hp')]; [by left| |right; eauto].
        exfalso. destruct Hn; contradiction.
Qed.

(** X14: after a successful build, the container holds a category exactly
    for each extracted table that has at least one row, except the one
    named [programs]. *)
Theorem built_categories_exact (r : reader) (rD : table loc) (h : heap)
    (c : container) (h' : heap)
    (Hb : build_all r rD (Container "vrpt" []) h = inr (c, h')) (n : string) :
  n ∈ map fst (cont_objs c) <->
  exists rows, (n, rows) ∈ rD /\ rows <> [] /\ n <> "programs".
Proof.
  rewrite (build_all_elem _ _ _ _ _ _ n Hb). simpl.
  split; [intros [H|H]; [by apply not_elem_of_nil in H|done]|by right].
Qed.

Lemma built_categories_exact_witness :
  w_built = inr (cont_of w_built, res_heap w_built) /\
  ("ModelledSubgroup" ∈ map fst (cont_objs (cont_of w_built)) <->
   exists rows, ("ModelledSubgroup", rows) ∈ w_rd /\ rows <> [] /\
                "ModelledSubgroup" <> "programs").
Proof.
  assert (Hb : w_built = inr (cont_of w_built, res_heap w_built))
    by (vm_compute; reflexivity).
  split; [exact Hb|].
  exact (built_categories_exact w_reader w_rd w_xheap _ _ Hb "ModelledSubgroup").
Defined.

(** ** Rows of [__extract]: shared dictionaries and fresh copies *)

Section Aliasing.

Lemma foldl_inv {A B} (f : A -> B -> A) (P : A -> Prop) (Q : B -> Prop) (l : list B) (s : A) :
  Forall Q l -> (forall s x, Q x -> P s -> P (f s x)) -> P s -> P (foldl f s l).
Proof.
  intros Hl Hf. revert s. induction Hl as [|x l Hx _ IH]; intros s Hs; simpl; [done|].
  apply IH. by apply Hf.
Qed.

Lemma foldl_reach {A B} (f : A -> B -> A) (P : A -> Prop) (l : list B) (s : A) (x : B) :
  x ∈ l -> (forall s, P (f s x)) -> (forall s y, P s -> P (f s y)) -> P (foldl f s l).
Proof.
  intros Hx Hnew Hkeep. revert s. induction l as [|y l IH]; intros s; simpl.
  - by apply not_elem_of_nil in Hx.
  - apply elem_of_cons in Hx as [->|Hx].
    + apply (foldl_inv f P (fun _ => True)); [by apply Forall_true|eauto|apply Hnew].
    + by apply IH.
Qed.

Definition in_table {A} (k : string) (x : A) (t : table A) : Prop :=
  exists rows, (k, rows) ∈ t /\ x ∈ rows.

Lemma setdefault_append_new {A} (k : string) (v : A) (t : table A) :
  in_table k v (setdefault_append k v t).
Proof.
  induction t as [|[k' vs] t IH]; simpl.
  - exists [v]. split; by apply list_elem_of_singleton.
  - destruct (String.eqb k k') eqn:E.
    + apply String.eqb_eq in E. subst k'. exists (vs ++ [v]).
      split; [by left|]. apply elem_of_app. right. by apply list_elem_of_singleton.
    + destruct IH as [rows [Hin Hv]]. exists rows. split; [by right|done].
Qed.

Lemma setdefault_append_keep {A} (k k' : string) (v x : A) (t : table A) :
  in_table k' x t -> in_table k' x (setdefault_append k v t).
Proof.
  induction t as [|[k0 vs] t IH]; simpl; intros [rows [Hin Hx]].
  - by apply not_elem_of_nil in Hin.
  - apply elem_of_cons in Hin as [Heq|Hin].
    + injection Heq as E1 E2. subst k0 vs. destruct (String.eqb k k').
      * exists (rows ++ [v]). split; [by left|]. apply elem_of_app. by left.
      * exists rows. split; [by left|done].
    + destruct (String.eqb k k0).
      * exists rows. split; [by right|done].
      * destruct IH as [rows' [Hin' Hx']]; [by exists rows|].
        exists rows'. split; [by right|done].
Qed.

Lemma extract_grandchildren_keep k x gchs s :
  in_table k x (xs_rd s) -> in_table k x (xs_rd (extract_grandchildren gchs s)).
Proof.
  intros H. unfold extract_grandchildren.
  apply (foldl_inv _ (fun s => in_table k x (xs_rd s)) (fun _ => True));
    [by apply Forall_true| |exact H].
  intros s' g _ H'. by apply setdefault_append_keep.
Qed.

Lemma extract_child_keep k x el s ch :
  in_table k x (xs_rd s) -> in_table k x (xs_rd (extract_child el s ch)).
Proof.
  intros H. unfold extract_child, xalloc. simpl.
  apply extract_grandchildren_keep. simpl. by apply setdefault_append_keep.
Qed.

Lemma extract_top_keep k x s el :
  in_table k x (xs_rd s) -> in_table k x (xs_rd (extract_top s el)).
Proof.
  intros H. unfold extract_top.
  apply (foldl_inv _ (fun s => in_table k x (xs_rd s)) (fun _ => True)); [by apply Forall_true| |].
  - intros s' ch _ H'. by apply extract_child_keep.
  - simpl. by apply setdefault_append_keep.
Qed.

(** The locations of the dictionaries that [__extract] stores as they are:
    those of the top-level elements and of the grandchildren. *)
Definition shared_locs (root : element) : list loc :=
  flat_map (fun el => el_attrib el ::
    flat_map (fun ch => map el_attrib (el_children ch)) (el_children el))
    (el_children root).

Definition rows_from (h : heap) (D : list loc) (s : xstate) : Prop :=
  h ⊆ xs_heap s /\
  forall kl l, kl ∈ xs_rd s -> l ∈ kl.2 -> l ∈ D \/ h !! l = None.

Lemma rows_from_xappend h D k l s :
  l ∈ D -> rows_from h D s -> rows_from h D (xappend k l s).
Proof.
  intros Hl [Hsub Hrows]. split; [done|]. simpl. intros kl x Hkl Hx.
  destruct (setdefault_append_elem _ _ _ _ _ Hkl Hx) as [->|[kl0 [Hkl0 Hx0]]];
    [by left|by eapply Hrows].
Qed.

Lemma rows_from_child h D el s ch :
  Forall (fun g => el_attrib g ∈ D) (el_children ch) ->
  rows_from h D s -> rows_from h D (extract_child el s ch).
Proof.
  intros Hg [Hsub Hrows]. unfold extract_child, xalloc.
  set (l := fresh (dom (xs_heap s))).
  assert (Hl : xs_heap s !! l = None) by (apply not_elem_of_dom, is_fresh).
  assert (Hhl : h !! l = None).
  { destruct (h !! l) eqn:E; [|done]. by rewrite (lookup_weaken _ _ _ _ E Hsub) in Hl. }
  apply (foldl_inv _ (rows_from h D) (fun g => el_attrib g ∈ D)); [done| |].
  - intros s' g Hgd Hs'. by apply rows_from_xappend.
  - split; simpl.
    + by apply insert_subseteq_r.
    + intros kl x Hkl Hx.
      destruct (setdefault_append_elem _ _ _ _ _ Hkl Hx) as [->|[kl0 [Hkl0 Hx0]]];
        [by right|by eapply Hrows].
Qed.

End Aliasing.

(** X15: [__extract] stores the very dictionary of each top-level element
    and of each grandchild in the table named by its tag (no copy is made),
    while every other row, the row of a child, is a new dictionary; the
    dictionaries of the document are left as they were. *)
Theorem extract_shares_dictionaries (root : element) (h : heap) :
  h ⊆ xs_heap (extract root h) /\
  (forall el, el ∈ el_children root ->
     in_table (el_tag el) (el_attrib el) (xs_rd (extract root h))) /\
  (forall el ch g, el ∈ el_children root -> ch ∈ el_children el -> g ∈ el_children ch ->
     in_table (el_tag g) (el_attrib g) (xs_rd (extract root h))) /\
  (forall k l, in_table k l (xs_rd (extract root h)) ->
     l ∈ shared_locs root \/ h !! l = None).
Proof.
  assert (Hinv : rows_from h (shared_locs root) (extract root h)).
  { unfold extract.
    apply (foldl_inv _ (rows_from h (shared_locs root)) (fun el => el ∈ el_children root)).
    - by apply Forall_forall.
    - intros s el Hel Hs. unfold extract_top.
      apply (foldl_inv _ (rows_from h (shared_locs root)) (fun ch => ch ∈ el_children el)).
      + by apply Forall_forall.
      + intros s' ch Hch Hs'. apply rows_from_child; [|done].
        apply Forall_forall. intros g Hg. unfold shared_locs.
        apply list_elem_of_In, in_flat_map. exists el. split; [by apply list_elem_of_In|].
        right. apply in_flat_map. exists ch. split; [by apply list_elem_of_In|].
        apply in_map. by apply list_elem_of_In.
      + apply rows_from_xappend; [|done]. unfold shared_locs.
        apply list_elem_of_In, in_flat_map. exists el. split; [by apply list_elem_of_In|].
        by left.
    - split; [done|]. simpl. intros kl l Hkl. by apply not_elem_of_nil in Hkl. }
  destruct Hinv as [Hsub Hrows].
  split; [done|]. split; [|split].
  - intros el Hel. unfold extract.
    apply (foldl_reach _ (fun s => in_table (el_tag el) (el_attrib el) (xs_rd s)) _ _ el Hel).
    + intros s. unfold extract_top.
      apply (foldl_inv _ (fun s => in_table (el_tag el) (el_attrib el) (xs_rd s)) (fun _ => True));
        [by apply Forall_true| |].
      * intros s' ch _ H'. by apply extract_child_keep.
      * apply setdefault_append_new.
    + intros s y H. by apply extract_top_keep.
  - intros el ch g Hel Hch Hg. unfold extract.
    apply (foldl_reach _ (fun s => in_table (el_tag g) (el_attrib g) (xs_rd s)) _ _ el Hel).
    + intros s. unfold extract_top.
      apply (foldl_reach _ (fun s => in_table (el_tag g) (el_attrib g) (xs_rd s)) _ _ ch Hch).
      * intros s'. unfold extract_child, xalloc. simpl. unfold extract_grandchildren.
        apply (foldl_reach _ (fun s => in_table (el_tag g) (el_attrib g) (xs_rd s)) _ _ g Hg).
        -- intros s''. apply setdefault_append_new.
        -- intros s'' y H. by apply setdefault_append_keep.
      * intros s' y H. by apply extract_child_keep.
    + intros s y H. by apply extract_top_keep.
  - intros k l [rows [Hin Hl]]. exact (Hrows _ _ Hin Hl).
Qed.

Lemma split_join_roundtrip_witness :
  ["a"; "b"] <> [] /\ Forall (fun x => split_comma x = [x]) ["a"; "b"] /\
  join_comma (split_comma "a, b") = "a, b" /\
  split_comma (join_comma ["a"; "b"]) = ["a"; "b"].
Proof.
  assert (Hne : ["a"; "b"] <> []) by discriminate.
  assert (Hf : Forall (fun x => split_comma x = [x]) ["a"; "b"]) by (repeat constructor).
  split; [exact Hne|]. split; [exact Hf|].
  destruct (split_join_roundtrip "a, b" ["a"; "b"]) as [H1 H2].
  split; [exact H1|exact (H2 Hne Hf)].
Defined.
